(** * dnn-visualizer: the forward pass and the topology handlers of
    [ActivationVisualizer], embedded from [src/src/ActivationVisualizer.jsx]
    and from the older variant of the component.

    Numbers.  The component is written once, over the operations on
    Numbers that its source uses ([Arith]), and read in two ways.  In
    [exact], a Number is a real or [Nan], with the arithmetic of the
    reals: no rounding, no overflow, no infinity.  In [double], a Number
    is an IEEE binary64 value with the kernel's arithmetic, or
    [Approximated] where the language leaves the value of [Math.exp] or
    [Math.tanh] to the implementation.  The two are compared through the
    real number that a double stands for ([real_of]).

    Arrays.  A dense JavaScript array is a list; reading past its end gives
    [None] ([undefined]).  A write past the end that would leave holes is
    reported as [SparseWrite], since a list has no holes.

    Objects used as tables.  [activationFunctions] is looked up by its own
    keys only; the members inherited from [Object.prototype] are not in the
    model, and a property that depends on the lookup of an arbitrary name
    assumes that the name is none of theirs ([own_names]). *)

From Stdlib Require Import Reals Lra.
From Stdlib Require PrimFloat SpecFloat FloatOps FloatAxioms.
From stdpp Require Import base strings list gmap pretty.

Open Scope string_scope.
Open Scope list_scope.
Open Scope nat_scope.

(** ** Numbers *)

(** What the source does with Numbers: the literals [0] and [1], [+], [*],
    [/], unary [-], [Math.max], [Math.exp], [Math.tanh], and [NaN], which
    is what arithmetic makes of [undefined].  [finite] is
    [Number.isFinite]. *)
Class Arith (number : Type) : Type := {
  NaN : number;
  Zero : number;
  One : number;
  js_add : number → number → number;
  js_mul : number → number → number;
  js_div : number → number → number;
  js_neg : number → number;
  Math_max : number → number → number;
  Math_exp : number → number;
  Math_tanh : number → number;
  finite : number → Prop
}.

Abbreviation vector number := (list number).
Abbreviation matrix number := (list (list number)).

(** The reals, and [Nan]. *)
Inductive exact : Type :=
| Num (r : R)
| Nan.

Definition exact1 (f : R → R) (a : exact) : exact :=
  match a with
  | Num x => Num (f x)
  | Nan => Nan
  end.

Definition exact2 (f : R → R → R) (a b : exact) : exact :=
  match a, b with
  | Num x, Num y => Num (f x y)
  | _, _ => Nan
  end.

(** A quotient by 0 would be an infinity, which [exact] does not have: it
    is folded into [Nan].  The source divides by [1 + Math.exp(-x)]
    only. *)
Definition exact_div (a b : exact) : exact :=
  match a, b with
  | Num x, Num y => if Req_dec_T y 0 then Nan else Num (x / y)
  | _, _ => Nan
  end.

#[global] Instance exact_arith : Arith exact := {|
  NaN := Nan;
  Zero := Num 0;
  One := Num 1;
  js_add := exact2 Rplus;
  js_mul := exact2 Rmult;
  js_div := exact_div;
  js_neg := exact1 Ropp;
  Math_max := exact2 Rmax;
  Math_exp := exact1 exp;
  Math_tanh := exact1 Rtrigo_def.tanh;
  finite := λ a, ∃ r, a = Num r
|}.

(** IEEE binary64. *)
Module Double.
Import PrimFloat.

(** A double that the standards determine, or one that they leave to the
    implementation. *)
Inductive double : Type :=
| Known (f : float)
| Approximated.

Definition double1 (f : float → float) (a : double) : double :=
  match a with
  | Known x => Known (f x)
  | Approximated => Approximated
  end.

Definition double2 (f : float → float → float) (a b : double) : double :=
  match a, b with
  | Known x, Known y => Known (f x y)
  | _, _ => Approximated
  end.

(** [Math.max]: [NaN] if an argument is, and [+0] above [-0]. *)
Definition max (x y : float) : float :=
  if is_nan x || is_nan y then nan
  else if (x <? y)%float then y
  else if (y <? x)%float then x
  else if is_zero x && get_sign x then y
  else x.

(** [Math.exp] where ECMAScript fixes it: [NaN], the zeros and the
    infinities.  Elsewhere it is implementation-approximated. *)
Definition exp (a : double) : double :=
  match a with
  | Known x =>
      if is_nan x then Known nan
      else if is_zero x then Known 1%float
      else if (x =? infinity)%float then Known infinity
      else if (x =? neg_infinity)%float then Known 0%float
      else Approximated
  | Approximated => Approximated
  end.

(** [Math.tanh], likewise. *)
Definition tanh (a : double) : double :=
  match a with
  | Known x =>
      if is_nan x then Known nan
      else if is_zero x then Known x
      else if (x =? infinity)%float then Known 1%float
      else if (x =? neg_infinity)%float then Known (-1)%float
      else Approximated
  | Approximated => Approximated
  end.

Definition is_finite (a : double) : Prop :=
  match a with
  | Known x => PrimFloat.is_finite x = true
  | Approximated => False
  end.

(** The doubles nearest to 1e308 and to 10. *)
Definition huge : double := Known 0x1.1ccf385ebc8ap+1023%float.
Definition ten : double := Known 10%float.

(** [a] is a double strictly between 0 and 1. *)
Definition strictly_inside (a : double) : Prop :=
  match a with
  | Known x => (0 <? x)%float = true ∧ (x <? 1)%float = true
  | Approximated => False
  end.

End Double.

#[global] Instance double_arith : Arith Double.double := {|
  NaN := Double.Known PrimFloat.nan;
  Zero := Double.Known PrimFloat.zero;
  One := Double.Known PrimFloat.one;
  js_add := Double.double2 PrimFloat.add;
  js_mul := Double.double2 PrimFloat.mul;
  js_div := Double.double2 PrimFloat.div;
  js_neg := Double.double1 PrimFloat.opp;
  Math_max := Double.double2 Double.max;
  Math_exp := Double.exp;
  Math_tanh := Double.tanh;
  finite := Double.is_finite
|}.

(** ** Exceptions *)

Inductive error : Type :=
| TypeError      (* reading a property of [undefined], calling [undefined] *)
| SparseWrite.   (* an index write that would leave holes in the array *)

Inductive result (A : Type) : Type :=
| Ok (v : A)
| Throw (e : error).
Arguments Ok {A} v.
Arguments Throw {A} e.

#[global] Instance result_bind : MBind result := λ A B k m,
  match m with
  | Ok v => k v
  | Throw e => Throw e
  end.

(** An object that has to be defined before a property of it is read or
    before it is called. *)
Definition defined {A} (o : option A) : result A :=
  match o with
  | Some v => Ok v
  | None => Throw TypeError
  end.

(** ** Arrays *)

(** [arr.reduce((acc, v, idx) => f acc v idx, init)] *)
Fixpoint reduce_from {A B} (f : B → A → nat → B) (idx : nat) (acc : B)
    (arr : list A) : B :=
  match arr with
  | [] => acc
  | v :: arr' => reduce_from f (S idx) (f acc v idx) arr'
  end.

Definition reduce {A B} (f : B → A → nat → B) (init : B) (arr : list A) : B :=
  reduce_from f 0 init arr.

(** [arr[i] = v] on a dense array: overwrite in range, push at the end,
    and a sparse array beyond. *)
Definition array_set {A} (arr : list A) (i : nat) (v : A) : result (list A) :=
  if decide (i < length arr) then Ok (<[i:=v]> arr)
  else if decide (i = length arr) then Ok (arr ++ [v])
  else Throw SparseWrite.

(** [arr.filter((_, i) => i !== idx)] *)
Fixpoint filter_index_from {A} (i idx : nat) (arr : list A) : list A :=
  match arr with
  | [] => []
  | v :: arr' =>
      if decide (i ≠ idx) then v :: filter_index_from (S i) idx arr'
      else filter_index_from (S i) idx arr'
  end.

Definition filter_index {A} (idx : nat) (arr : list A) : list A :=
  filter_index_from 0 idx arr.

(** ** The component's state *)

Record State (number : Type) : Type := mkState {
  input : number;
  neuronsPerLayer : list nat;
  activations : list string;
  weights : list (matrix number);
  biases : list (vector number)
}.
Arguments mkState {number}.
Arguments input {number}.
Arguments neuronsPerLayer {number}.
Arguments activations {number}.
Arguments weights {number}.
Arguments biases {number}.

Record neuron (number : Type) : Type := mkNeuron {
  z : number;
  a : number;
  inputs : vector number
}.
Arguments mkNeuron {number}.
Arguments z {number}.
Arguments a {number}.
Arguments inputs {number}.

Definition maxNeurons : nat := 6.

Definition availableActivations : list string :=
  ["relu"; "sigmoid"; "tanh"; "linear"].

(** [v || "relu"] on a string or [undefined]: the empty string is falsy. *)
Definition or_relu (v : option string) : string :=
  match v with
  | None => "relu"
  | Some s => if decide (s = "") then "relu" else s
  end.

(** ** The component *)

Section Component.
Context {number : Type} {arith : Arith number}.

(** [ToNumber] of an array read: [undefined] becomes [NaN]. *)
Definition to_number (v : option number) : number := default NaN v.

(** *** Activation functions *)

Definition relu (x : number) : number := Math_max Zero x.
Definition sigmoid (x : number) : number :=
  js_div One (js_add One (Math_exp (js_neg x))).
Definition tanh (x : number) : number := Math_tanh x.
Definition linear (x : number) : number := x.

Definition activationFunctions (name : string) : option (number → number) :=
  if decide (name = "relu") then Some relu
  else if decide (name = "sigmoid") then Some sigmoid
  else if decide (name = "tanh") then Some tanh
  else if decide (name = "linear") then Some linear
  else None.

(** *** Math core *)

(** [sum + w * inputVector[idx]] *)
Definition dot_step (inputVector : vector number) (sum w : number)
    (idx : nat) : number :=
  js_add sum (js_mul w (to_number (inputVector !! idx))).

(** The body of the loop over [i]: one neuron of the layer. *)
Definition neuronOutput (row : vector number) (bl : option (vector number))
    (actFn : option (number → number)) (inputVector : vector number)
    (i : nat) : result (neuron number) :=
  let sum := reduce (dot_step inputVector) Zero row in
  bl ← defined bl;
  let z := js_add sum (to_number (bl !! i)) in
  actFn ← defined actFn;
  Ok {| z := z; a := actFn z; inputs := inputVector |}.

(** [for (let i = 0; i < Wl.length; i++)], from index [i] over the rows
    that are left. *)
Fixpoint neuronLoop (rows : matrix number) (i : nat)
    (bl : option (vector number)) (actFn : option (number → number))
    (inputVector : vector number) : result (list (neuron number)) :=
  match rows with
  | [] => Ok []
  | row :: rows' =>
      n ← neuronOutput row bl actFn inputVector i;
      output ← neuronLoop rows' (S i) bl actFn inputVector;
      Ok (n :: output)
  end.

(** The body of the loop over [l]: one layer. *)
Definition layerOutput (s : State number) (l : nat)
    (inputVector : vector number) : result (list (neuron number)) :=
  let Wl := weights s !! l in
  let bl := biases s !! l in
  let activationName := or_relu (activations s !! l) in
  let actFn := activationFunctions activationName in
  Wl ← defined Wl;
  neuronLoop Wl 0 bl actFn inputVector.

(** [for (let l = 0; l < neuronsPerLayer.length; l++)]: [count] turns are
    left, starting at layer [l]. *)
Fixpoint layerLoop (s : State number) (count l : nat)
    (inputVector : vector number) : result (list (list (neuron number))) :=
  match count with
  | O => Ok []
  | S count' =>
      output ← layerOutput s l inputVector;
      layerOutputs ← layerLoop s count' (S l) (map a output);
      Ok (output :: layerOutputs)
  end.

Definition forwardPass (s : State number) (x : number)
  : result (list (list (neuron number))) :=
  layerLoop s (length (neuronsPerLayer s)) 0 [x].

(** *** Random weights

    [Rand] is the sequence of the values that the coming calls of
    [randomWeight] return; a call takes the first one. *)
Definition Rand : Type := nat → number.

Definition Gen (A : Type) : Type := Rand → A * Rand.

Definition gen_ret {A} (v : A) : Gen A := fun g => (v, g).

Definition gen_bind {A B} (m : Gen A) (k : A → Gen B) : Gen B :=
  fun g => let (v, g') := m g in k v g'.

Definition randomWeight : Gen number :=
  fun g => (g 0, fun n => g (S n)).

(** [Array.from({ length }, f)]: [f] is called once per index, in
    order. *)
Fixpoint Array_from {A} (len : nat) (f : Gen A) : Gen (list A) :=
  match len with
  | O => gen_ret []
  | S len' =>
      gen_bind f (fun v =>
      gen_bind (Array_from len' f) (fun vs =>
      gen_ret (v :: vs)))
  end.

(** The loop of [initializeWeights] from [l] on: [cols] is
    [layerSizes[l - 1]] and [sizes] is [layerSizes] from index [l]. *)
Fixpoint initializeLoop (cols : nat) (sizes : list nat)
  : Gen (list (matrix number) * list (vector number)) :=
  match sizes with
  | [] => gen_ret ([], [])
  | rows :: sizes' =>
      gen_bind (Array_from rows (Array_from cols randomWeight)) (fun Wl =>
      gen_bind (Array_from rows randomWeight) (fun bl =>
      gen_bind (initializeLoop rows sizes') (fun Wb =>
      gen_ret (Wl :: Wb.1, bl :: Wb.2))))
  end.

(** [layerSizes = [1, ...layers]], and the loop starts at [l = 1]. *)
Definition initializeWeights (layers : list nat)
  : Gen (list (matrix number) * list (vector number)) :=
  initializeLoop 1 layers.

(** *** Handlers

    A handler reads the state of the render it was created in and sets
    the next one; one that throws sets nothing. *)
Definition Handler : Type := Rand → result (State number * Rand).

Definition setParams (s : State number) (layers : list nat)
    (acts : list string)
    (Wb : list (matrix number) * list (vector number)) : State number :=
  {| input := input s; neuronsPerLayer := layers; activations := acts;
     weights := Wb.1; biases := Wb.2 |}.

Definition regenerateWeights (s : State number) : Handler := fun g =>
  let (Wb, g') := initializeWeights (neuronsPerLayer s) g in
  Ok (setParams s (neuronsPerLayer s) (activations s) Wb, g').

Definition addLayer (s : State number) : Handler := fun g =>
  if decide (5 ≤ length (neuronsPerLayer s)) then Ok (s, g)
  else
    let newLayers := neuronsPerLayer s ++ [2] in
    let (Wb, g') := initializeWeights newLayers g in
    Ok (setParams s newLayers (activations s ++ ["relu"]) Wb, g').

Definition removeLayer (s : State number) (idx : nat) : Handler := fun g =>
  if decide (length (neuronsPerLayer s) ≤ 1) then Ok (s, g)
  else
    let newLayers := filter_index idx (neuronsPerLayer s) in
    let newActivations := filter_index idx (activations s) in
    let (Wb, g') := initializeWeights newLayers g in
    Ok (setParams s newLayers newActivations Wb, g').

Definition updateNeuronCount (s : State number) (layerIdx count : nat)
  : Handler := fun g =>
  newLayers ← array_set (neuronsPerLayer s) layerIdx count;
  let (Wb, g') := initializeWeights newLayers g in
  Ok (setParams s newLayers (activations s) Wb, g').

Definition updateWeight (s : State number) (layerIdx neuronIdx inputIdx : nat)
    (val : number) : Handler := fun g =>
  let newWeights := weights s in
  layer ← defined (newWeights !! layerIdx);
  row ← defined (layer !! neuronIdx);
  row' ← array_set row inputIdx val;
  Ok (setParams s (neuronsPerLayer s) (activations s)
        (<[layerIdx := <[neuronIdx := row']> layer]> newWeights, biases s),
      g).

Definition updateBias (s : State number) (layerIdx neuronIdx : nat)
    (val : number) : Handler := fun g =>
  let newBiases := biases s in
  bl ← defined (newBiases !! layerIdx);
  bl' ← array_set bl neuronIdx val;
  Ok (setParams s (neuronsPerLayer s) (activations s)
        (weights s, <[layerIdx := bl']> newBiases), g).

(** The [onChange] of a layer's activation [select]. *)
Definition selectActivation (s : State number) (idx : nat) (value : string)
  : Handler := fun g =>
  newActs ← array_set (activations s) idx value;
  Ok (setParams s (neuronsPerLayer s) newActs (weights s, biases s), g).

Definition setInput (s : State number) (x : number) : Handler := fun g =>
  Ok ({| input := x; neuronsPerLayer := neuronsPerLayer s;
         activations := activations s; weights := weights s;
         biases := biases s |}, g).

(** The state of the first render. *)
Definition initialState : Gen (State number) := fun g =>
  let (Wb, g') := initializeWeights [3; 2] g in
  ({| input := Zero; neuronsPerLayer := [3; 2];
      activations := ["tanh"; "sigmoid"];
      weights := Wb.1; biases := Wb.2 |}, g').

(** *** The events of the page *)

Inductive event : Type :=
| AddLayer
| RemoveLayer (idx : nat)
| UpdateNeuronCount (layerIdx count : nat)
| SelectActivation (idx : nat) (value : string)
| UpdateWeight (layerIdx neuronIdx inputIdx : nat) (val : number)
| UpdateBias (layerIdx neuronIdx : nat) (val : number)
| RegenerateWeights
| SetInput (x : number).

Definition handle (s : State number) (ev : event) : Handler :=
  match ev with
  | AddLayer => addLayer s
  | RemoveLayer idx => removeLayer s idx
  | UpdateNeuronCount layerIdx count => updateNeuronCount s layerIdx count
  | SelectActivation idx value => selectActivation s idx value
  | UpdateWeight l n i val => updateWeight s l n i val
  | UpdateBias l n val => updateBias s l n val
  | RegenerateWeights => regenerateWeights s
  | SetInput x => setInput s x
  end.

(** What the rendered controls can send.  A neuron-count slider exists
    per layer and ranges over [1 .. maxNeurons]; a [select] exists per
    layer and offers [availableActivations]; a parameter slider exists
    per entry of [weights].  The two layer buttons are taken as always
    there: their handlers guard themselves. *)
Definition offered (s : State number) (ev : event) : Prop :=
  match ev with
  | AddLayer | RemoveLayer _ | RegenerateWeights | SetInput _ => True
  | UpdateNeuronCount layerIdx count =>
      layerIdx < length (neuronsPerLayer s) ∧ 1 ≤ count ≤ maxNeurons
  | SelectActivation idx value =>
      idx < length (neuronsPerLayer s) ∧ value ∈ availableActivations
  | UpdateWeight l n i _ =>
      ∃ layer row, weights s !! l = Some layer ∧ layer !! n = Some row
                   ∧ i < length row
  | UpdateBias l n _ =>
      ∃ layer, weights s !! l = Some layer ∧ n < length layer
  end.

Inductive step : State number * Rand → State number * Rand → Prop :=
| step_event s g ev s' g' :
    offered s ev →
    handle s ev g = Ok (s', g') →
    step (s, g) (s', g').

Inductive reachable : State number * Rand → Prop :=
| reachable_init g : reachable (initialState g)
| reachable_step c c' : reachable c → step c c' → reachable c'.

(** *** Shapes *)

(** One layer of the parameter set against [rows] neurons fed by [cols]
    inputs. *)
Definition layer_shape (rows cols : nat) (Wl : matrix number)
    (bl : vector number) : Prop :=
  length Wl = rows ∧ Forall (λ row, length row = cols) Wl ∧
  length bl = rows.

(** The parameter set against the topology: layer [l] (counted from 0
    here) is fed by the layer before it, and the first one by the scalar
    input, of size 1. *)
Definition shapes_match (topology : list nat) (W : list (matrix number))
    (b : list (vector number)) : Prop :=
  length W = length topology ∧ length b = length topology ∧
  ∀ l rows, topology !! l = Some rows →
    ∃ Wl bl, W !! l = Some Wl ∧ b !! l = Some bl ∧
             layer_shape rows (nth l (1 :: topology) 0) Wl bl.

(** The same, layer after layer, [cols] being the size of the layer
    before. *)
Fixpoint shapes_from (cols : nat) (topology : list nat)
    (W : list (matrix number)) (b : list (vector number)) : Prop :=
  match topology, W, b with
  | [], [], [] => True
  | rows :: topology', Wl :: W', bl :: b' =>
      layer_shape rows cols Wl bl ∧ shapes_from rows topology' W' b'
  | _, _, _ => False
  end.

Definition topology_bounds (maxLayers maxSize : nat) (topology : list nat)
  : Prop :=
  1 ≤ length topology ≤ maxLayers ∧
  Forall (λ n, 1 ≤ n ≤ maxSize) topology.

(** What every render of the page finds. *)
Record invariant (s : State number) : Prop := {
  inv_bounds : topology_bounds 5 maxNeurons (neuronsPerLayer s);
  inv_shapes : shapes_from 1 (neuronsPerLayer s) (weights s) (biases s);
  inv_acts_length : length (activations s) = length (neuronsPerLayer s);
  inv_acts_known :
    Forall (λ name, name ∈ availableActivations) (activations s)
}.

(** *** What a call of [forwardPass] needs *)

(** Nothing that [forwardPass] reads a property of, or calls, is
    [undefined]: [weights] and [biases] have an entry per layer, and the
    name of every layer, when there is one, is a key of
    [activationFunctions]. *)
Definition objects_defined (s : State number) : Prop :=
  length (neuronsPerLayer s) ≤ length (weights s) ∧
  length (neuronsPerLayer s) ≤ length (biases s) ∧
  ∀ l name, l < length (neuronsPerLayer s) →
    activations s !! l = Some name →
    name = "" ∨ name ∈ availableActivations.

(** The selection of layer [l] is missing: [undefined] or empty. *)
Definition selection_missing (s : State number) (l : nat) : Prop :=
  activations s !! l = None ∨ activations s !! l = Some "".

(** A well-formed input of the evaluator: finite numbers, shapes that
    match the topology, and one known activation per layer. *)
Record well_formed (s : State number) (x : number) : Prop := {
  wf_input : finite x;
  wf_shapes : shapes_match (neuronsPerLayer s) (weights s) (biases s);
  wf_weights : Forall (Forall (Forall finite)) (weights s);
  wf_biases : Forall (Forall finite) (biases s);
  wf_acts_length : length (activations s) = length (neuronsPerLayer s);
  wf_acts_known :
    Forall (λ name, name ∈ availableActivations) (activations s)
}.

(** The running vector that a well-formed pass has at layer [l]. *)
Definition running (s : State number) (l : nat) (v : vector number)
  : Prop :=
  length v = nth l (1 :: neuronsPerLayer s) 0 ∧ Forall finite v.

(** The neuron that [neuronOutput] returns when nothing is
    [undefined]. *)
Definition neuronOf (bl : vector number) (actFn : number → number)
    (inputVector : vector number) (i : nat) (row : vector number)
  : neuron number :=
  let z := js_add (reduce (dot_step inputVector) Zero row)
                  (to_number (bl !! i)) in
  {| z := z; a := actFn z; inputs := inputVector |}.

(** A row of the first layer is not as long as the running vector
    [[x]]. *)
Definition first_layer_mismatch (s : State number) (x : number) : Prop :=
  ∃ Wl row, weights s !! 0 = Some Wl ∧ row ∈ Wl ∧ length row ≠ length [x].

(** How the linear sum of neuron [i] of layer [l] stands to its row when
    no length is checked: a row longer than the inputs gives [NaN], and
    a row that is not longer reads only as many inputs as it has
    weights. *)
Definition row_unchecked (s : State number) (l i : nat) (n : neuron number)
  : Prop :=
  ∃ Wl bl row,
    weights s !! l = Some Wl ∧ Wl !! i = Some row ∧
    biases s !! l = Some bl ∧
    (length (inputs n) < length row → z n = NaN) ∧
    (length row ≤ length (inputs n) →
     z n = js_add (reduce (dot_step (take (length row) (inputs n)))
                          Zero row)
                  (to_number (bl !! i))).

(** *** Sample states *)

(** One neuron, a weight and a bias. *)
Definition single (name : string) (w b : number) : State number :=
  {| input := Zero; neuronsPerLayer := [1]; activations := [name];
     weights := [[[w]]]; biases := [[b]] |}.

(** Two layers of one neuron each. *)
Definition chain (name1 name2 : string) (w1 b1 w2 b2 : number)
  : State number :=
  {| input := Zero; neuronsPerLayer := [1; 1];
     activations := [name1; name2];
     weights := [[[w1]]; [[w2]]];
     biases := [[b1]; [b2]] |}.

End Component.

Arguments event : clear implicits.

(** ** The older variant of the component

    Three activation functions, no fallback for a missing selection, and
    the table is read inside the loop over [i]. *)
Module Older.
Section Component.
Context {number : Type} {arith : Arith number}.

Definition maxNeurons : nat := 8.

Definition activationFunctions (name : option string)
  : option (number → number) :=
  match name with
  | None => None    (* the key "undefined" *)
  | Some name =>
      if decide (name = "relu") then Some relu
      else if decide (name = "sigmoid") then Some sigmoid
      else if decide (name = "tanh") then Some tanh
      else None
  end.

Definition neuronOutput (row : vector number)
    (bl : option (vector number)) (activation : option string)
    (inputVector : vector number) (i : nat) : result (neuron number) :=
  let sum := reduce (dot_step inputVector) Zero row in
  bl ← defined bl;
  let z := js_add sum (to_number (bl !! i)) in
  actFn ← defined (activationFunctions activation);
  Ok {| z := z; a := actFn z; inputs := inputVector |}.

Fixpoint neuronLoop (rows : matrix number) (i : nat)
    (bl : option (vector number)) (activation : option string)
    (inputVector : vector number) : result (list (neuron number)) :=
  match rows with
  | [] => Ok []
  | row :: rows' =>
      n ← neuronOutput row bl activation inputVector i;
      output ← neuronLoop rows' (S i) bl activation inputVector;
      Ok (n :: output)
  end.

Definition layerOutput (s : State number) (l : nat)
    (inputVector : vector number) : result (list (neuron number)) :=
  let Wl := weights s !! l in
  let bl := biases s !! l in
  let activation := activations s !! l in
  Wl ← defined Wl;
  neuronLoop Wl 0 bl activation inputVector.

Fixpoint layerLoop (s : State number) (count l : nat)
    (inputVector : vector number)
  : result (list (list (neuron number))) :=
  match count with
  | O => Ok []
  | S count' =>
      output ← layerOutput s l inputVector;
      layerOutputs ← layerLoop s count' (S l) (map a output);
      Ok (output :: layerOutputs)
  end.

Definition forwardPass (s : State number) (x : number)
  : result (list (list (neuron number))) :=
  layerLoop s (length (neuronsPerLayer s)) 0 [x].

End Component.
End Older.

(** ** The reference algorithm of the specification

    The evaluator as the specification words it: a closed set of
    activations, the layers taken in topology order, the neurons of a
    layer counted by its size, and the linear sum as the bias plus the sum
    over the running vector.  It is written over the same operations on
    Numbers as the component, so that it can be read in exact arithmetic
    and in doubles. *)
Module Reference.

Inductive Activation : Type :=
| RectifiedLinear
| LogisticSigmoid
| HyperbolicTangent
| Identity.

(** The identifier that the code has for an activation. *)
Definition name (k : Activation) : string :=
  match k with
  | RectifiedLinear => "relu"
  | LogisticSigmoid => "sigmoid"
  | HyperbolicTangent => "tanh"
  | Identity => "linear"
  end.

Section Evaluator.
Context {number : Type} {arith : Arith number}.

Definition activationFunction (k : Activation) (t : number) : number :=
  match k with
  | RectifiedLinear => Math_max Zero t
  | LogisticSigmoid => js_div One (js_add One (Math_exp (js_neg t)))
  | HyperbolicTangent => Math_tanh t
  | Identity => t
  end.

(** [Σ_{j < n} term j]: the empty sum is 0, and the sum of [n + 1]
    terms is the sum of the first [n] plus the last. *)
Fixpoint sum (term : nat → number) (n : nat) : number :=
  match n with
  | O => Zero
  | S n' => js_add (sum term n') (term n')
  end.

Definition weight (W : list (matrix number)) (l i j : nat) : number :=
  nth j (nth i (nth l W []) []) NaN.

Definition bias (b : list (vector number)) (l i : nat) : number :=
  nth i (nth l b []) NaN.

Definition neuronRecord (W : list (matrix number))
    (b : list (vector number)) (k : Activation) (l : nat)
    (runningVector : vector number) (i : nat) : neuron number :=
  let linearSum :=
    js_add (bias b l i)
           (sum (λ j, js_mul (weight W l i j) (nth j runningVector NaN))
                (length runningVector)) in
  {| inputs := runningVector; z := linearSum;
     a := activationFunction k linearSum |}.

(** The layers from [l] on: [layers] pairs the size of each with its
    activation. *)
Fixpoint evaluateFrom (W : list (matrix number))
    (b : list (vector number)) (layers : list (nat * Activation))
    (l : nat) (runningVector : vector number)
  : list (list (neuron number)) :=
  match layers with
  | [] => []
  | (size, k) :: layers' =>
      let records :=
        map (neuronRecord W b k l runningVector) (seq 0 size) in
      records :: evaluateFrom W b layers' (S l) (map a records)
  end.

Definition evaluate (x : number) (topology : list nat)
    (W : list (matrix number)) (b : list (vector number))
    (acts : list Activation) : list (list (neuron number)) :=
  evaluateFrom W b (zip topology acts) 0 [x].

End Evaluator.
End Reference.

(** ** Sample states *)

Definition zeros : @Rand exact := λ _, Num 0.

(** The first render, all random weights being 0. *)
Definition first_render : State exact * Rand := initialState zeros.

(** The same after the slider of the first layer is moved to 6. *)
Definition second_render : State exact * Rand :=
  match handle first_render.1 (UpdateNeuronCount 0 6) first_render.2 with
  | Ok c => c
  | Throw _ => first_render
  end.

(** One neuron whose row has two weights, for a single input. *)
Definition long_row : State exact :=
  {| input := Num 0; neuronsPerLayer := [1]; activations := ["relu"];
     weights := [[[Num 1; Num 2]]]; biases := [[Num 0]] |}.

(** One neuron whose row has no weight at all. *)
Definition short_row : State exact :=
  {| input := Num 0; neuronsPerLayer := [1]; activations := ["relu"];
     weights := [[[]]]; biases := [[Num 7]] |}.

(** Two layers, the selection of the second being missing. *)
Definition unselected : State exact :=
  {| input := Num 0; neuronsPerLayer := [1; 1]; activations := ["linear"];
     weights := [[[Num 1]]; [[Num 1]]]; biases := [[Num 0]; [Num 0]] |}.

(** One sigmoid neuron of weight 1e308 and bias 0, in doubles. *)
Definition saturated : State Double.double :=
  single "sigmoid" Double.huge Zero.

(** ** The rest of the page *)

(** *** What the render reads *)

(** A node of the diagram: [{a, isInput}] for the input, a neuron record
    otherwise (its [isInput] is [undefined], falsy). *)
Record node (number : Type) : Type := mkNode {
  node_a : number;
  isInput : bool
}.
Arguments mkNode {number}.
Arguments node_a {number}.
Arguments isInput {number}.

Section Rendering.
Context {number : Type} {arith : Arith number}.

(** [currentOutputs = forwardPass(input)] *)
Definition currentOutputs (s : State number)
  : result (list (list (neuron number))) :=
  forwardPass s (input s).

(** [[[{ a: input, isInput: true }], ...currentOutputs]] *)
Definition visualizationLayers (s : State number)
  : result (list (list (node number))) :=
  outputs ← currentOutputs s;
  Ok ([ {| node_a := input s; isInput := true |} ]
      :: map (map (λ n, {| node_a := a n; isInput := false |})) outputs).

(** [weights[lIdx][nextIdx][nIdx]], the weight an edge of the diagram is
    drawn with in the weights view. *)
Definition edgeWeight (s : State number) (lIdx nextIdx nIdx : nat)
  : result (option number) :=
  Wl ← defined (weights s !! lIdx);
  row ← defined (Wl !! nextIdx);
  Ok (row !! nIdx).

(** The cells of a row of the trace table that come from the
    parameters: [biases[lIdx][nIdx].toFixed(2)] and
    [weights[lIdx][nIdx].map(...)], before they are formatted. *)
Definition traceRow (s : State number) (lIdx nIdx : nat)
  : result (number * vector number) :=
  bl ← defined (biases s !! lIdx);
  bias ← defined (bl !! nIdx);
  Wl ← defined (weights s !! lIdx);
  row ← defined (Wl !! nIdx);
  Ok (bias, row).

(** The weight columns of a layer's table in the editor:
    [layerWeights[0].map(...)]. *)
Definition editorColumns (layerWeights : matrix number) : result nat :=
  row ← defined (layerWeights !! 0);
  Ok (length row).

(** The value of the bias slider of a row of the editor:
    [biases[lIdx][nIdx]], whose [toFixed] is called. *)
Definition editorBias (s : State number) (lIdx nIdx : nat)
  : result number :=
  bl ← defined (biases s !! lIdx);
  defined (bl !! nIdx).

(** The entry [weights[l][n][i]], if there is one. *)
Definition weightAt (s : State number) (l n i : nat) : option number :=
  match weights s !! l with
  | Some Wl =>
      match Wl !! n with
      | Some row => row !! i
      | None => None
      end
  | None => None
  end.

(** The entry [biases[l][n]], if there is one. *)
Definition biasAt (s : State number) (l n : nat) : option number :=
  match biases s !! l with
  | Some bl => bl !! n
  | None => None
  end.

(** What a call of [forwardPass] needs of layer [l]: its matrix, and,
    unless the matrix has no row, its bias vector and a function for its
    name. *)
Definition layer_callable (s : State number) (l : nat) : Prop :=
  ∃ Wl, weights s !! l = Some Wl ∧
    (Wl = [] ∨
     (is_Some (biases s !! l) ∧
      is_Some (activationFunctions (number:=number)
                 (or_relu (activations s !! l))))).

(** The running vector of layer [l] of a result: the input for the
    first layer, the outputs of the layer before for the others. *)
Definition running_vector (x : number) (out : list (list (neuron number)))
    (l : nat) : option (vector number) :=
  match l with
  | O => Some [x]
  | S l' => map a <$> out !! l'
  end.

(** *** The page with values of one kind

    The states that the page reaches when every value that comes in,
    from the random source or from a slider, satisfies [P]. *)
Definition event_values (P : number → Prop) (ev : event number) : Prop :=
  match ev with
  | UpdateWeight _ _ _ val | UpdateBias _ _ val => P val
  | SetInput x => P x
  | _ => True
  end.

Inductive reachable_with (P : number → Prop)
  : State number * Rand → Prop :=
| reachable_with_init g :
    (∀ n, P (g n)) → reachable_with P (initialState g)
| reachable_with_step s g ev s' g' :
    reachable_with P (s, g) →
    offered s ev → event_values P ev →
    handle s ev g = Ok (s', g') →
    reachable_with P (s', g').

(** Every parameter of the state, its input and what is left of the
    random source satisfy [P]. *)
Record values_in (P : number → Prop) (c : State number * Rand) : Prop := {
  vin_input : P (input c.1);
  vin_weights : Forall (Forall (Forall P)) (weights c.1);
  vin_biases : Forall (Forall P) (biases c.1);
  vin_rand : ∀ n, P (c.2 n)
}.

End Rendering.

(** *** The page of the older variant *)

Module OlderPage.
Section Component.
Context {number : Type} {arith : Arith number}.

(** [initializeWeights()] there reads [neuronsPerLayer] of the render
    the closure was made in. *)
Definition regenerateWeights (s : State number) : Handler := fun g =>
  let (Wb, g') := initializeWeights (neuronsPerLayer s) g in
  Ok (setParams s (neuronsPerLayer s) (activations s) Wb, g').

(** The [onChange] of a neuron-count slider: it sets the new counts
    and calls [regenerateWeights], which still reads the counts of the
    current render. *)
Definition sliderChange (s : State number) (idx count : nat) : Handler :=
  fun g =>
  newCounts ← array_set (neuronsPerLayer s) idx count;
  let (Wb, g') := initializeWeights (neuronsPerLayer s) g in
  Ok (setParams s newCounts (activations s) Wb, g').

Definition initialState : Gen (State number) := fun g =>
  let (Wb, g') := initializeWeights [3; 3; 2] g in
  ({| input := Zero; neuronsPerLayer := [3; 3; 2];
      activations := ["relu"; "sigmoid"; "tanh"];
      weights := Wb.1; biases := Wb.2 |}, g').

Inductive event : Type :=
| SliderChange (idx count : nat)
| RegenerateWeights
| SetInput (x : number).

Definition handle (s : State number) (ev : event) : Handler :=
  match ev with
  | SliderChange idx count => sliderChange s idx count
  | RegenerateWeights => regenerateWeights s
  | SetInput x => setInput s x
  end.

(** A slider exists per layer and ranges over
    [1 .. Older.maxNeurons]. *)
Definition offered (s : State number) (ev : event) : Prop :=
  match ev with
  | SliderChange idx count =>
      idx < length (neuronsPerLayer s) ∧ 1 ≤ count ≤ Older.maxNeurons
  | RegenerateWeights | SetInput _ => True
  end.

Inductive reachable : State number * Rand → Prop :=
| reachable_init g : reachable (initialState g)
| reachable_step s g ev s' g' :
    reachable (s, g) → offered s ev → handle s ev g = Ok (s', g') →
    reachable (s', g').

End Component.
Arguments event : clear implicits.
End OlderPage.

(** *** The chart's filter *)

(** [`L${lIdx + 1}_N${nIdx + 1}`], the key of a neuron in a point of the
    chart and in [hiddenLines]. *)
Definition lineKey (lIdx nIdx : nat) : string :=
  "L" +:+ pretty (lIdx + 1) +:+ "_N" +:+ pretty (nIdx + 1).

(** The character [_]. *)
Definition underscore : Ascii.ascii := Ascii.ascii_of_nat 95.

(** No character of [s] is an underscore. *)
Fixpoint underscore_free (s : string) : Prop :=
  match s with
  | EmptyString => True
  | String c s' => c ≠ underscore ∧ underscore_free s'
  end.

Definition toggleLineVisibility (hiddenLines : gset string) (key : string)
  : gset string :=
  let newHidden := hiddenLines in
  if decide (key ∈ newHidden) then newHidden ∖ {[ key ]}
  else newHidden ∪ {[ key ]}.

(** The line of a neuron is drawn unless its key is hidden. *)
Definition lineDrawn (hiddenLines : gset string) (lIdx nIdx : nat) : Prop :=
  lineKey lIdx nIdx ∉ hiddenLines.

(** *** Numbers on display, in exact arithmetic *)

Definition Math_abs : exact → exact := exact1 Rabs.
Definition Math_min : exact → exact → exact := exact2 Rmin.

(** [a >= b]: false when an operand is [NaN]. *)
Definition js_ge (a b : exact) : bool :=
  match a, b with
  | Num x, Num y => if Rle_dec y x then true else false
  | _, _ => false
  end.

(** [parseFloat(x.toFixed(digits))]: [toFixed] takes the integer [n] for
    which [n / 10^digits] is nearest to the magnitude of [x], the larger
    one of two, and keeps the sign; from 1e21 on it prints [x] itself. *)
Definition toFixed_value (digits : nat) (x : R) : R :=
  if Rle_dec 1e21 (Rabs x) then x
  else
    let n := Zfloor (Rabs x * 10 ^ digits + / 2) in
    if Rlt_dec x 0 then (- (IZR n / 10 ^ digits))%R
    else (IZR n / 10 ^ digits)%R.

Definition parseFloat_toFixed (digits : nat) : exact → exact :=
  exact1 (toFixed_value digits).

(** The value of [randomWeight()] when [Math.random()] gives [u]. *)
Definition randomWeight_of (u : R) : exact :=
  parseFloat_toFixed 2 (js_add (js_mul (Num u) (Num 2)) (js_neg (Num 1))).

(** The value charted for a neuron:
    [parseFloat(neuron.a.toFixed(4))]. *)
Definition chartValue (n : neuron exact) : exact :=
  parseFloat_toFixed 4 (a n).

(** A colour of the diagram: a template [rgba(r, g, b, ${alpha})] kept as
    its parts, or a literal. *)
Inductive colour : Type :=
| Rgba (r g b : nat) (alpha : exact)
| Hex (code : string).

Record nodeStyle : Type := mkStyle { fill : colour; stroke : colour }.

Definition getNodeColor (val : exact) (mode : string) : nodeStyle :=
  if decide (mode = "weights")
  then {| fill := Hex "#1e293b"; stroke := Hex "#94a3b8" |}
  else
    let intensity := Math_min (Math_abs val) (Num 1) in
    let minOpacity := Num 0.3 in
    let opacity := Math_max intensity minOpacity in
    if js_ge val (Num 0)
    then {| fill := Rgba 34 197 94 opacity; stroke := Rgba 34 197 94 (Num 1) |}
    else {| fill := Rgba 249 115 22 opacity;
            stroke := Rgba 249 115 22 (Num 1) |}.

(** [styles.fill.split(',')[3].replace(')', '')]: the fourth part of the
    template; a literal has one part only, and [replace] is then called
    on [undefined]. *)
Definition fillOpacity (c : colour) : result exact :=
  match c with
  | Rgba _ _ _ alpha => Ok alpha
  | Hex _ => Throw TypeError
  end.

(** The style of an edge in the weights view: [intensity] and
    [strokeWidth]. *)
Definition edgeIntensity (wVal : exact) : exact :=
  Math_min (Math_abs wVal) (Num 1).

Definition edgeStrokeWidth (wVal : exact) : exact :=
  Math_max (Num 1) (js_mul (Math_abs wVal) (Num 3)).

(** *** The layout of the diagram, in exact arithmetic *)

Definition svgWidth : R := 800.
Definition svgHeight : R := 400.
Definition neuronSpacing : R := 70.
Definition neuronRadius : R := 24.

(** [svgWidth / (visualizationLayers.length + 1)] *)
Definition layerSpacing (layers : nat) : R := (svgWidth / (INR layers + 1))%R.

(** [layerSpacing * (lIdx + 1)] *)
Definition nodeX (layers lIdx : nat) : R :=
  (layerSpacing layers * (INR lIdx + 1))%R.

(** [svgHeight / 2 - ((layer.length - 1) * neuronSpacing) / 2
     + nIdx * neuronSpacing] *)
Definition nodeY (layerLength nIdx : nat) : R :=
  (svgHeight / 2 - ((INR layerLength - 1) * neuronSpacing) / 2
   + INR nIdx * neuronSpacing)%R.

(** The same in the older variant, whose canvas is 300 high, with 60
    between neurons of radius 15. *)
Definition older_svgHeight : R := 300.
Definition older_neuronSpacing : R := 60.
Definition older_neuronRadius : R := 15.

Definition older_nodeY (layerLength nIdx : nat) : R :=
  (older_svgHeight / 2 - ((INR layerLength - 1) * older_neuronSpacing) / 2
   + INR nIdx * older_neuronSpacing)%R.

(** *** The sweep of the chart, in doubles *)

Module Sweep.
Import PrimFloat.

Definition limit : float := 5%float.

(** The values that [x] takes in
    [for (let x = -5; x <= 5; x += step)]; [fuel] bounds the turns. *)
Fixpoint from (fuel : nat) (step x : float) : option (list float) :=
  match fuel with
  | O => None
  | S fuel' =>
      if (x <=? limit)%float
      then cons x <$> from fuel' step (x + step)%float
      else Some []
  end.

(** The doubles of the literals 0.2 and 0.1. *)
Definition step_current : float := 0x1.999999999999ap-3%float.
Definition step_older : float := 0x1.999999999999ap-4%float.

Definition graphData_inputs (fuel : nat) : option (list float) :=
  from fuel step_current (-5)%float.

Definition older_graphData_inputs (fuel : nat) : option (list float) :=
  from fuel step_older (-5)%float.

(** The doubles printed 4.800000000000004 and 4.999999999999997. *)
Definition last_current : float := 0x1.3333333333338p+2%float.
Definition last_older : float := 0x1.3fffffffffffdp+2%float.

End Sweep.

(** *** More sample states *)

(** The first render with its second layer removed. *)
Definition layer_removed : State exact * Rand :=
  match handle first_render.1 (RemoveLayer 1) first_render.2 with
  | Ok c => c
  | Throw _ => first_render
  end.

(** Two identity neurons in a chain, the second of weight [w]. *)
Definition identity_pair (w : R) : State exact :=
  chain "linear" "linear" (Num 1) (Num 0) (Num w) (Num 0).

(** What the pass gives for it at the input 5. *)
Definition identity_pair_out (w : R) : list (list (neuron exact)) :=
  [ [ {| z := Num (0 + 1 * 5 + 0); a := Num (0 + 1 * 5 + 0);
         inputs := [Num 5] |} ];
    [ {| z := Num (0 + w * (0 + 1 * 5 + 0) + 0);
         a := Num (0 + w * (0 + 1 * 5 + 0) + 0);
         inputs := [Num (0 + 1 * 5 + 0)] |} ] ].

(** The first render of the older page, all random weights being 0, and
    the same after the slider of its first layer is moved to 8. *)
Definition older_first_render : State exact * Rand :=
  OlderPage.initialState zeros.

Definition older_second_render : State exact * Rand :=
  match OlderPage.handle older_first_render.1 (OlderPage.SliderChange 0 8)
          older_first_render.2 with
  | Ok c => c
  | Throw _ => older_first_render
  end.

(** *** The real value of a double *)



(** *** Sample doubles *)

Module DoubleSamples.
Import PrimFloat.
Import Double.

(** The doubles nearest to 0.1, 0.2 and 0.3, and the ones printed
    0.30000000000000004 and 0.6000000000000001. *)
Definition tenth : float := 0x1.999999999999ap-4%float.
Definition fifth : float := 0x1.999999999999ap-3%float.
Definition three_tenths : float := 0x1.3333333333333p-2%float.
Definition six_tenths_up : float := 0x1.3333333333334p-1%float.


(** Three identity neurons of weights 0.1, 0.2 and 0.3, and a relu
    neuron that adds their outputs. *)
Definition tenths : State double :=
  {| input := Known 1%float; neuronsPerLayer := [3; 1];
     activations := ["linear"; "relu"];
     weights := [ [[Known tenth]; [Known fifth]; [Known three_tenths]];
                  [[Known 1%float; Known 1%float; Known 1%float]] ];
     biases := [ [Known 0%float; Known 0%float; Known 0%float];
                 [Known 0%float] ] |}.

End DoubleSamples.

(** *** Names that the table inherits *)

(** The members of [Object.prototype].  [activationFunctions] is an
    object literal: looked up by one of these names it gives the
    inherited member, which the model of the table does not have. *)
Definition Object_prototype_names : list string :=
  ["constructor"; "hasOwnProperty"; "isPrototypeOf";
   "propertyIsEnumerable"; "toLocaleString"; "toString"; "valueOf";
   "__proto__"; "__defineGetter__"; "__defineSetter__";
   "__lookupGetter__"; "__lookupSetter__"].

(** No layer is given a name that the table inherits. *)
Definition own_names {number : Type} (s : State number) : Prop :=
  ∀ l name, l < length (neuronsPerLayer s) →
    activations s !! l = Some name → name ∉ Object_prototype_names.

(** One neuron with a name that the page does not offer. *)
Definition unknown_name : State exact :=
  single "softmax" (Num 1) (Num 0).

(** * Properties *)

(** ** Lemmas on the array operations *)

Lemma filter_index_from_ge {A} i idx (arr : list A) :
  idx < i → filter_index_from i idx arr = arr.
Proof.
  revert i. induction arr as [|v arr IH]; intros i Hi; simpl; trivial.
  case_decide; [|lia]. f_equal. apply IH. lia.
Qed.

Lemma filter_index_from_length {A} i idx (arr : list A) :
  length (filter_index_from i idx arr) =
  if decide (i ≤ idx < i + length arr) then length arr - 1 else length arr.
Proof.
  revert i. induction arr as [|v arr IH]; intros i; simpl.
  - case_decide; lia.
  - case_decide as Hi; simpl.
    + rewrite IH. repeat case_decide; lia.
    + assert (i = idx) as -> by lia.
      rewrite filter_index_from_ge by lia. case_decide; lia.
Qed.

Lemma filter_index_from_Forall {A} (P : A → Prop) i idx (arr : list A) :
  Forall P arr → Forall P (filter_index_from i idx arr).
Proof.
  intros H. revert i. induction H as [|v arr Hv H IH]; intros i; simpl.
  - constructor.
  - case_decide; [constructor|]; auto.
Qed.

Lemma array_set_Forall {A} (P : A → Prop) (arr arr' : list A) i v :
  i < length arr → array_set arr i v = Ok arr' →
  arr' = <[i:=v]> arr ∧ length arr' = length arr ∧
  (P v → Forall P arr → Forall P arr').
Proof.
  intros Hi. unfold array_set. case_decide; [|lia]. intros [= <-].
  repeat split.
  - apply length_insert.
  - intros Hv Harr. by apply Forall_insert.
Qed.

(** A member of a list that is written out. *)
Ltac in_list :=
  first [apply list_elem_of_here | apply list_elem_of_further; in_list].

Section Properties.
Context {number : Type} {arith : Arith number}.

Implicit Types (s : State number) (v row bl : vector number)
  (Wl : matrix number) (W : list (matrix number))
  (b : list (vector number)) (topology : list nat).

(** ** Lemmas on the shapes *)

Lemma shapes_from_lengths cols topology W b :
  shapes_from cols topology W b →
  length W = length topology ∧ length b = length topology.
Proof.
  revert cols W b.
  induction topology as [|rows topology IH]; intros cols [|Wl W] [|bl b];
    simpl; try tauto.
  intros [_ H]. destruct (IH _ _ _ H). split; congruence.
Qed.

Lemma shapes_from_lookup cols topology W b l rows :
  shapes_from cols topology W b →
  topology !! l = Some rows →
  ∃ Wl bl, W !! l = Some Wl ∧ b !! l = Some bl ∧
           layer_shape rows (nth l (cols :: topology) 0) Wl bl.
Proof.
  revert cols W b l.
  induction topology as [|r topology IH]; intros cols [|Wl W] [|bl b] l;
    simpl; try tauto; try discriminate.
  intros [Hl H] Hrows. destruct l as [|l]; simpl in *.
  - injection Hrows as <-. eauto.
  - destruct (IH _ _ _ _ H Hrows) as (Wl' & bl' & ? & ? & ?). eauto.
Qed.

Lemma shapes_from_intro cols topology W b :
  length W = length topology → length b = length topology →
  (∀ l rows, topology !! l = Some rows →
     ∃ Wl bl, W !! l = Some Wl ∧ b !! l = Some bl ∧
              layer_shape rows (nth l (cols :: topology) 0) Wl bl) →
  shapes_from cols topology W b.
Proof.
  revert cols W b.
  induction topology as [|r topology IH];
    intros cols [|Wl W] [|bl b] HW Hb H;
    simpl in *; try discriminate; trivial.
  split.
  - destruct (H 0 r eq_refl) as (? & ? & [= <-] & [= <-] & ?). trivial.
  - apply IH; try congruence.
    intros l rows Hl. apply (H (S l) rows Hl).
Qed.

Lemma shapes_from_match topology W b :
  shapes_from 1 topology W b ↔ shapes_match topology W b.
Proof.
  split.
  - intros H. destruct (shapes_from_lengths _ _ _ _ H) as [? ?].
    repeat split; trivial. intros l rows. by apply shapes_from_lookup.
  - intros (HW & Hb & H). by apply shapes_from_intro.
Qed.

Lemma shapes_from_insert_row cols topology W b l layer n row row' :
  shapes_from cols topology W b →
  W !! l = Some layer → layer !! n = Some row → length row' = length row →
  shapes_from cols topology (<[l := <[n := row']> layer]> W) b.
Proof.
  revert cols W b l.
  induction topology as [|rows topology IH]; intros cols [|Wl W] [|bl b] l;
    simpl; try tauto; try discriminate.
  intros [(HWl & Hrows & Hbl) H] Hl Hn Hlen. destruct l as [|l]; simpl in *.
  - injection Hl as ->. split; trivial. repeat split; trivial.
    + by rewrite length_insert.
    + apply Forall_insert; trivial.
      rewrite Hlen. exact (proj1 (Forall_lookup _ _) Hrows n row Hn).
  - split; [by repeat split|]. by eapply IH.
Qed.

Lemma shapes_from_insert_bias cols topology W b l bl bl' :
  shapes_from cols topology W b →
  b !! l = Some bl → length bl' = length bl →
  shapes_from cols topology W (<[l := bl']> b).
Proof.
  revert cols W b l.
  induction topology as [|rows topology IH];
    intros cols [|Wl W] [|bl0 b] l;
    simpl; try tauto; try discriminate.
  intros [(HWl & Hrows & Hbl) H] Hl Hlen. destruct l as [|l]; simpl in *.
  - injection Hl as ->. split; trivial. repeat split; trivial. congruence.
  - split; [by repeat split|]. by eapply IH.
Qed.

(** ** Lemmas on the generated parameters *)

Lemma Array_from_Forall {A} (P : A → Prop) len
    (f : Gen (number:=number) A) (g : Rand (number:=number)) :
  (∀ g', P (f g').1) →
  length (Array_from len f g).1 = len ∧ Forall P (Array_from len f g).1.
Proof.
  intros Hf. revert g.
  induction len as [|len IH]; intros g; simpl.
  - split; [reflexivity | constructor].
  - unfold gen_bind. specialize (Hf g). destruct (f g) as [v g1].
    specialize (IH g1). destruct (Array_from len f g1) as [vs g2].
    simpl in *. destruct IH as [IHl IHf].
    split; [by rewrite IHl | by constructor].
Qed.

Lemma initializeLoop_shapes cols sizes (g : Rand (number:=number)) :
  shapes_from cols sizes (initializeLoop cols sizes g).1.1
                         (initializeLoop cols sizes g).1.2.
Proof.
  revert cols g.
  induction sizes as [|rows sizes IH]; intros cols g; simpl; trivial.
  unfold gen_bind.
  destruct (Array_from_Forall (A:=list number) (λ row, length row = cols)
              rows (Array_from cols randomWeight) g) as [HWl HWr].
  { intros g'. apply (Array_from_Forall (λ _, True)). trivial. }
  destruct (Array_from rows (Array_from cols randomWeight) g) as [Wl g1].
  destruct (Array_from_Forall (λ _, True) rows randomWeight g1)
    as [Hbl _]; [trivial|].
  destruct (Array_from rows randomWeight g1) as [bl g2].
  specialize (IH rows g2).
  destruct (initializeLoop rows sizes g2) as [[W b] g3]. simpl in *.
  repeat split; trivial.
Qed.

Lemma initializeWeights_shapes layers (g : Rand (number:=number)) :
  shapes_from 1 layers (initializeWeights layers g).1.1
                       (initializeWeights layers g).1.2.
Proof. apply initializeLoop_shapes. Qed.

(** ** The invariant of the page *)

Lemma invariant_init (g : Rand (number:=number)) : invariant (initialState g).1.
Proof.
  unfold initialState.
  pose proof (initializeWeights_shapes [3; 2] g) as H.
  destruct (initializeWeights [3; 2] g) as [Wb g']. simpl in *.
  split; simpl; trivial.
  - split; simpl; [lia|]. unfold maxNeurons. repeat constructor; lia.
  - unfold availableActivations. repeat first [in_list | constructor].
Qed.

Lemma invariant_step s (g : Rand (number:=number)) ev s' g' :
  invariant s → offered s ev → handle s ev g = Ok (s', g') → invariant s'.
Proof.
  intros [[Hlen Hsize] Hshape Hal Hak] Hoff.
  destruct ev as [|idx|layerIdx count|idx value|l n i val|l n val| |x];
    simpl in *.
  - (* addLayer *)
    unfold addLayer. case_decide as Hfull.
    { intros [= <- <-]. by split. }
    pose proof (initializeWeights_shapes (neuronsPerLayer s ++ [2]) g) as H.
    destruct (initializeWeights _ g) as [Wb g1]. intros [= <- <-].
    split; simpl; trivial.
    + split.
      * rewrite length_app. simpl. lia.
      * apply Forall_app. split; trivial.
        unfold maxNeurons. repeat constructor; lia.
    + rewrite !length_app. simpl. lia.
    + apply Forall_app. split; trivial.
      unfold availableActivations. repeat first [in_list | constructor].
  - (* removeLayer *)
    unfold removeLayer. case_decide as Hone.
    { intros [= <- <-]. by split. }
    pose proof (initializeWeights_shapes
                  (filter_index idx (neuronsPerLayer s)) g) as H.
    destruct (initializeWeights _ g) as [Wb g1]. intros [= <- <-].
    unfold filter_index in *.
    split; simpl; trivial.
    + split.
      * rewrite filter_index_from_length. case_decide; lia.
      * by apply filter_index_from_Forall.
    + rewrite !filter_index_from_length, Hal. reflexivity.
    + by apply filter_index_from_Forall.
  - (* updateNeuronCount *)
    destruct Hoff as [Hidx Hcount]. unfold updateNeuronCount.
    destruct (array_set (neuronsPerLayer s) layerIdx count) as [newLayers|e]
      eqn:Hset; [|discriminate].
    destruct (array_set_Forall (λ n, 1 ≤ n ≤ maxNeurons) _ _ _ _ Hidx Hset)
      as (_ & Hl & Hf).
    cbn.
    pose proof (initializeWeights_shapes newLayers g) as H.
    destruct (initializeWeights newLayers g) as [Wb g1]. intros [= <- <-].
    split; simpl; trivial.
    + split; [lia | auto].
    + congruence.
  - (* the activation select *)
    destruct Hoff as [Hidx Hvalue]. unfold selectActivation.
    rewrite <- Hal in Hidx.
    destruct (array_set (activations s) idx value) as [newActs|e]
      eqn:Hset; [|discriminate].
    destruct (array_set_Forall (λ name, name ∈ availableActivations)
                _ _ _ _ Hidx Hset) as (_ & Hl & Hf).
    cbn. intros [= <- <-].
    split; simpl; trivial.
    + by split.
    + congruence.
    + auto.
  - (* updateWeight *)
    destruct Hoff as (layer & row & Hlayer & Hrow & Hi).
    unfold updateWeight. rewrite Hlayer. cbn. rewrite Hrow. cbn.
    destruct (array_set row i val) as [row'|e] eqn:Hset; [|discriminate].
    destruct (array_set_Forall (λ _, True) _ _ _ _ Hi Hset) as (_ & Hl & _).
    cbn. intros [= <- <-].
    split; simpl; trivial.
    + by split.
    + by eapply shapes_from_insert_row.
  - (* updateBias *)
    destruct Hoff as (layer & Hlayer & Hn).
    assert (∃ bl, biases s !! l = Some bl ∧ n < length bl)
      as (bl & Hbl & Hn').
    { destruct (lookup_lt_is_Some_2 (neuronsPerLayer s) l) as [rows Hrows].
      { destruct (shapes_from_lengths _ _ _ _ Hshape) as [<- _].
        eapply lookup_lt_Some; eauto. }
      destruct (shapes_from_lookup _ _ _ _ _ _ Hshape Hrows)
        as (Wl & bl & HWl & Hbl & (? & _ & ?)).
      exists bl. split; trivial.
      rewrite Hlayer in HWl. injection HWl as ->. lia. }
    unfold updateBias. rewrite Hbl. cbn.
    destruct (array_set bl n val) as [bl'|e] eqn:Hset; [|discriminate].
    destruct (array_set_Forall (λ _, True) _ _ _ _ Hn' Hset)
      as (_ & Hl & _).
    cbn. intros [= <- <-].
    split; simpl; trivial.
    + by split.
    + by eapply shapes_from_insert_bias.
  - (* regenerateWeights *)
    unfold regenerateWeights.
    pose proof (initializeWeights_shapes (neuronsPerLayer s) g) as H.
    destruct (initializeWeights _ g) as [Wb g1]. intros [= <- <-].
    split; simpl; trivial. by split.
  - (* setInput *)
    unfold setInput. intros [= <- <-]. split; simpl; trivial. by split.
Qed.

Lemma invariant_reachable (c : State number * Rand) :
  reachable c → invariant c.1.
Proof.
  induction 1 as [g|c c' _ IH Hstep].
  - apply invariant_init.
  - destruct Hstep as [s g ev s' g' Hoff Hev]. simpl in *.
    by eapply invariant_step.
Qed.

(** ** Lemmas on the loops *)

Lemma activationFunctions_known name :
  name ∈ availableActivations →
  or_relu (Some name) = name ∧
  is_Some (activationFunctions (number:=number) name).
Proof.
  unfold availableActivations. rewrite !elem_of_cons, elem_of_nil.
  intros [->|[->|[->|[->|[]]]]]; (split; [reflexivity|]); by eexists.
Qed.

Lemma activationFunctions_or_relu (o : option string) :
  (∀ name, o = Some name → name = "" ∨ name ∈ availableActivations) →
  is_Some (activationFunctions (number:=number) (or_relu o)).
Proof.
  intros H. destruct o as [name|]; [|by eexists].
  destruct (H name eq_refl) as [->|Hk]; [by eexists|].
  by destruct (activationFunctions_known name Hk) as [-> ?].
Qed.

Lemma neuronLoop_defined (rows : matrix number) i bl actFn v :
  neuronLoop rows i (Some bl) (Some actFn) v =
  Ok (imap (λ k, neuronOf bl actFn v (i + k)) rows).
Proof.
  revert i. induction rows as [|row rows IH]; intros i; simpl; trivial.
  rewrite IH. cbn. rewrite Nat.add_0_r. do 2 f_equal.
  apply imap_ext. intros k row' _. simpl. f_equal. lia.
Qed.

(** [layerLoop] returns when every layer does, and a property of the
    running vector that every layer keeps holds all along. *)
Lemma layerLoop_returns (P : nat → vector number → Prop) s count l v :
  (∀ l' v', l ≤ l' < l + count → P l' v' →
     ∃ output, layerOutput s l' v' = Ok output ∧ P (S l') (map a output)) →
  P l v →
  ∃ out, layerLoop s count l v = Ok out ∧ length out = count ∧
    ∀ k output, out !! k = Some output →
      ∃ v', P (l + k) v' ∧ layerOutput s (l + k) v' = Ok output.
Proof.
  revert l v. induction count as [|count IH]; intros l v Hstep Hv; simpl.
  - eexists. repeat split. intros k output. by rewrite lookup_nil.
  - destruct (Hstep l v) as (output & Hout & Hv'); [lia | trivial |].
    rewrite Hout. cbn.
    destruct (IH (S l) (map a output)) as (out & Hloop & Hlen & Hk);
      trivial.
    { intros l' v' Hl'. apply Hstep. lia. }
    rewrite Hloop. cbn. eexists. split; [reflexivity|].
    split; [simpl; by rewrite Hlen|].
    intros [|k] output'; simpl.
    + intros [= <-]. rewrite Nat.add_0_r. eauto.
    + intros Hk'. replace (l + S k) with (S l + k) by lia. eauto.
Qed.

Lemma layerOutput_defined s l v Wl bl actFn :
  weights s !! l = Some Wl → biases s !! l = Some bl →
  activationFunctions (or_relu (activations s !! l)) = Some actFn →
  layerOutput s l v = Ok (imap (neuronOf bl actFn v) Wl).
Proof.
  intros HW Hb Hf. unfold layerOutput. rewrite HW, Hb, Hf. cbn.
  apply neuronLoop_defined.
Qed.

Lemma objects_defined_layer s l :
  objects_defined s → l < length (neuronsPerLayer s) →
  ∃ Wl bl actFn, weights s !! l = Some Wl ∧ biases s !! l = Some bl ∧
    activationFunctions (or_relu (activations s !! l)) = Some actFn.
Proof.
  intros (HW & Hb & Hn) Hl.
  destruct (lookup_lt_is_Some_2 (weights s) l) as [Wl ?]; [lia|].
  destruct (lookup_lt_is_Some_2 (biases s) l) as [bl ?]; [lia|].
  destruct (activationFunctions_or_relu (activations s !! l)) as [f ?];
    [intros name; by apply Hn|].
  eauto 10.
Qed.

(** With everything defined, the pass returns, one output per layer, and
    each output is the row-by-row image of the layer's matrix. *)
Lemma forwardPass_returns s x :
  objects_defined s →
  ∃ out, forwardPass s x = Ok out ∧
    length out = length (neuronsPerLayer s) ∧
    ∀ l output, out !! l = Some output →
      ∃ Wl bl actFn v, weights s !! l = Some Wl ∧ biases s !! l = Some bl ∧
        activationFunctions (or_relu (activations s !! l)) = Some actFn ∧
        output = imap (neuronOf bl actFn v) Wl.
Proof.
  intros Hs. unfold forwardPass.
  destruct (layerLoop_returns (λ _ _, True) s
              (length (neuronsPerLayer s)) 0 [x])
    as (out & Hout & Hlen & Hk); trivial.
  { intros l v [_ Hl] _. simpl in Hl.
    destruct (objects_defined_layer s l Hs Hl) as (Wl & bl & f & ? & ? & ?).
    eexists. split; [by eapply layerOutput_defined | trivial]. }
  exists out. repeat split; trivial.
  intros l output Hl. destruct (Hk l output Hl) as (v & _ & Hv).
  simpl in Hv.
  assert (l < length (neuronsPerLayer s)) as Hlt.
  { rewrite <- Hlen. by eapply lookup_lt_Some. }
  destruct (objects_defined_layer s l Hs Hlt)
    as (Wl & bl & f & HW & Hb & Hf).
  rewrite (layerOutput_defined s l v Wl bl f) in Hv by trivial.
  injection Hv as <-. eauto 10.
Qed.

Lemma shapes_objects_defined s :
  shapes_match (neuronsPerLayer s) (weights s) (biases s) →
  Forall (λ name, name ∈ availableActivations) (activations s) →
  objects_defined s.
Proof.
  intros (HW & Hb & _) Hacts. repeat split; try lia.
  intros l name _ Hname. right.
  exact (proj1 (Forall_lookup _ _) Hacts l name Hname).
Qed.

Lemma reduce_from_take v idx acc row :
  reduce_from (dot_step v) idx acc row =
  reduce_from (dot_step (take (idx + length row) v)) idx acc row.
Proof.
  revert idx acc.
  induction row as [|w row IH]; intros idx acc; simpl; trivial.
  rewrite IH.
  replace (S idx + length row) with (idx + S (length row)) by lia.
  unfold dot_step at 2 4. by rewrite lookup_take_lt by lia.
Qed.

(** ** The two variants of [forwardPass] *)

Lemma older_neuronLoop (rows : matrix number) i
    (bl : option (vector number)) name v :
  Older.activationFunctions (Some name) = activationFunctions name →
  Older.neuronLoop rows i bl (Some name) v =
  neuronLoop rows i bl (activationFunctions name) v.
Proof.
  intros Hf. revert i. induction rows as [|row rows IH]; intros i; simpl;
    trivial.
  rewrite IH. unfold Older.neuronOutput, neuronOutput. by rewrite Hf.
Qed.

Lemma older_table name :
  name ∈ ["relu"; "sigmoid"; "tanh"] →
  or_relu (Some name) = name ∧
  Older.activationFunctions (number:=number) (Some name)
    = activationFunctions name ∧
  name ∈ availableActivations.
Proof.
  rewrite !elem_of_cons, elem_of_nil. unfold availableActivations.
  intros [->|[->|[->|[]]]]; repeat split; in_list.
Qed.

Lemma older_layerLoop s count l v :
  (∀ l', l ≤ l' < l + count →
     ∃ name, activations s !! l' = Some name ∧
             name ∈ ["relu"; "sigmoid"; "tanh"]) →
  Older.layerLoop s count l v = layerLoop s count l v.
Proof.
  revert l v. induction count as [|count IH]; intros l v Hacts; simpl;
    trivial.
  destruct (Hacts l) as (name & Hname & Hin); [lia|].
  destruct (older_table name Hin) as (Hor & Hf & _).
  assert (Older.layerOutput s l v = layerOutput s l v) as ->.
  { unfold Older.layerOutput, layerOutput. rewrite Hname, Hor.
    destruct (weights s !! l); simpl; trivial. by apply older_neuronLoop. }
  destruct (layerOutput s l v) as [output|e]; simpl; trivial.
  rewrite IH; trivial. intros l' Hl'. apply Hacts. lia.
Qed.

(** The two variants agree, failures included, as soon as every layer
    has one of the three names of the older table. *)
Lemma older_forwardPass s x :
  length (activations s) = length (neuronsPerLayer s) →
  Forall (λ name, name ∈ ["relu"; "sigmoid"; "tanh"]) (activations s) →
  Older.forwardPass s x = forwardPass s x.
Proof.
  intros Hlen Hacts. apply older_layerLoop. intros l [_ Hl]. simpl in Hl.
  destruct (lookup_lt_is_Some_2 (activations s) l) as [name Hname]; [lia|].
  exists name. split; trivial.
  exact (proj1 (Forall_lookup _ _) Hacts l name Hname).
Qed.

End Properties.

(** * The properties of the specification *)

Section Claims.
Context {number : Type} {arith : Arith number}.

(** C4.  In every state that the page reaches through its controls, the
    topology has at least 1 and at most 5 layers, and every layer has at
    least 1 and at most 8 neurons. *)
Theorem reachable_topology_bounds (s : State number) (g : Rand) :
  reachable (s, g) → topology_bounds 5 8 (neuronsPerLayer s).
Proof.
  intros Hr. destruct (invariant_reachable _ Hr) as [[Hlen Hsize] _ _ _].
  simpl in *. split; trivial.
  eapply Forall_impl; [exact Hsize|]. unfold maxNeurons. simpl. lia.
Qed.

(** C5.  In every state that the page reaches (the first render, and
    whatever [addLayer], [removeLayer], [updateNeuronCount] and the
    other controls lead to), the parameter set has the shapes of the
    topology: the matrix of a layer has as many rows as the layer has
    neurons, each as long as the layer before it (the scalar input, of
    size 1, for the first), and the bias vector is as long as the
    layer. *)
Theorem reachable_shapes_match (s : State number) (g : Rand) :
  reachable (s, g) →
  shapes_match (neuronsPerLayer s) (weights s) (biases s).
Proof.
  intros Hr. apply shapes_from_match.
  by destruct (invariant_reachable _ Hr).
Qed.

(** C10.  The current [forwardPass] and the one of the older variant
    return the same layers of [{z, a, inputs}] records for every input,
    every parameter set that has the shapes of the topology, and every
    selection of one of relu, sigmoid and tanh per layer. *)
Theorem forwardPass_variants_agree (s : State number) (x : number) :
  shapes_match (neuronsPerLayer s) (weights s) (biases s) →
  length (activations s) = length (neuronsPerLayer s) →
  Forall (λ name, name ∈ ["relu"; "sigmoid"; "tanh"]) (activations s) →
  ∃ out, forwardPass s x = Ok out ∧ Older.forwardPass s x = Ok out.
Proof.
  intros Hshape Hlen Hacts.
  destruct (forwardPass_returns s x) as (out & Hout & _).
  { apply shapes_objects_defined; trivial.
    eapply Forall_impl; [exact Hacts|]. intros name Hin.
    by destruct (older_table (number:=number) name Hin) as (_ & _ & ?). }
  exists out. split; trivial. by rewrite older_forwardPass.
Qed.

End Claims.

Lemma reachable_second_render :
  reachable (second_render.1, second_render.2).
Proof.
  apply (reachable_step (first_render.1, first_render.2)).
  - apply (reachable_init zeros).
  - apply (step_event _ _ (UpdateNeuronCount 0 6)).
    + simpl. unfold maxNeurons. lia.
    + reflexivity.
Defined.

Lemma reachable_topology_bounds_witness :
  reachable (second_render.1, second_render.2) ∧
  topology_bounds 5 8 (neuronsPerLayer second_render.1).
Proof.
  split.
  - exact reachable_second_render.
  - apply (reachable_topology_bounds second_render.1 second_render.2).
    exact reachable_second_render.
Defined.

Lemma reachable_shapes_match_witness :
  reachable (second_render.1, second_render.2) ∧
  shapes_match (neuronsPerLayer second_render.1) (weights second_render.1)
               (biases second_render.1).
Proof.
  split.
  - exact reachable_second_render.
  - apply (reachable_shapes_match second_render.1 second_render.2).
    exact reachable_second_render.
Defined.

Lemma objects_defined_unselected : objects_defined unselected.
Proof.
  repeat split; simpl; try lia.
  intros [|[|l]] name Hl; try (simpl in Hl; lia); [|discriminate].
  intros [= <-]. right. in_list.
Defined.

Lemma shapes_match_chain {number} {arith : Arith number} name1 name2
    (w1 b1 w2 b2 : number) :
  shapes_match (neuronsPerLayer (chain name1 name2 w1 b1 w2 b2))
               (weights (chain name1 name2 w1 b1 w2 b2))
               (biases (chain name1 name2 w1 b1 w2 b2)).
Proof. apply shapes_from_match. simpl. repeat split; repeat constructor. Defined.

Lemma forwardPass_variants_agree_witness :
  shapes_match
    (neuronsPerLayer (chain "relu" "tanh" (Num 1) (Num 0) (Num (-1)) (Num 0)))
    (weights (chain "relu" "tanh" (Num 1) (Num 0) (Num (-1)) (Num 0)))
    (biases (chain "relu" "tanh" (Num 1) (Num 0) (Num (-1)) (Num 0))) ∧
  length
    (activations (chain "relu" "tanh" (Num 1) (Num 0) (Num (-1)) (Num 0)))
    = length
        (neuronsPerLayer
           (chain "relu" "tanh" (Num 1) (Num 0) (Num (-1)) (Num 0))) ∧
  Forall (λ name, name ∈ ["relu"; "sigmoid"; "tanh"])
    (activations (chain "relu" "tanh" (Num 1) (Num 0) (Num (-1)) (Num 0))) ∧
  ∃ out,
    forwardPass (chain "relu" "tanh" (Num 1) (Num 0) (Num (-1)) (Num 0))
                (Num 5) = Ok out ∧
    Older.forwardPass
      (chain "relu" "tanh" (Num 1) (Num 0) (Num (-1)) (Num 0)) (Num 5)
      = Ok out.
Proof.
  assert (Forall (λ name, name ∈ ["relu"; "sigmoid"; "tanh"])
            (activations
               (chain "relu" "tanh" (Num 1) (Num 0) (Num (-1)) (Num 0))))
    as Hacts.
  { simpl. repeat first [in_list | constructor]. }
  split; [apply shapes_match_chain|]. split; [reflexivity|].
  split; [exact Hacts|].
  exact (forwardPass_variants_agree _ (Num 5) (shapes_match_chain _ _ _ _ _ _)
           eq_refl Hacts).
Defined.

(** ** Exact arithmetic *)

Lemma exact_add_comm (x y : exact) : js_add x y = js_add y x.
Proof. destruct x, y; simpl; trivial. f_equal. apply Rplus_comm. Qed.

Lemma exact_add_assoc (x y t : exact) :
  js_add x (js_add y t) = js_add (js_add x y) t.
Proof.
  destruct x, y, t; simpl; trivial. f_equal. symmetry. apply Rplus_assoc.
Qed.

Lemma exact_add_zero_l (x : exact) : js_add Zero x = x.
Proof. destruct x; simpl; trivial. f_equal. apply Rplus_0_l. Qed.

Lemma exact_add_zero_r (x : exact) : js_add x Zero = x.
Proof. by rewrite exact_add_comm, exact_add_zero_l. Qed.

Lemma exact_add_finite (x y : exact) :
  finite x → finite y → finite (js_add x y).
Proof. intros [r ->] [r' ->]. simpl. by eexists. Qed.

Lemma exact_mul_finite (x y : exact) :
  finite x → finite y → finite (js_mul x y).
Proof. intros [r ->] [r' ->]. simpl. by eexists. Qed.

Lemma sigmoid_range r : (0 < 1 / (1 + exp (- r)) < 1)%R.
Proof.
  pose proof (exp_pos (- r)) as He.
  split.
  - apply Rdiv_lt_0_compat; lra.
  - unfold Rdiv. rewrite Rmult_1_l.
    apply Rlt_le_trans with (/ 1)%R; [|rewrite Rinv_1; lra].
    apply Rinv_lt_contravar; lra.
Qed.

(** The divisor of the sigmoid is never 0. *)
Lemma sigmoid_Num r : sigmoid (Num r) = Num (1 / (1 + exp (- r))).
Proof.
  unfold sigmoid. simpl. destruct (Req_dec_T (1 + exp (- r)) 0) as [H|H];
    trivial.
  pose proof (exp_pos (- r)). lra.
Qed.

Lemma activation_finite name actFn (x : exact) :
  activationFunctions name = Some actFn → finite x → finite (actFn x).
Proof.
  unfold activationFunctions. intros Hf [r ->].
  repeat case_decide; try discriminate; injection Hf as <-.
  - by eexists.
  - rewrite sigmoid_Num. by eexists.
  - by eexists.
  - by eexists.
Qed.

(** ** IEEE doubles *)

Lemma SFadd_comm prec emax (x y : SpecFloat.spec_float) :
  SpecFloat.SFadd prec emax x y = SpecFloat.SFadd prec emax y x.
Proof.
  destruct x as [sx|sx| |sx mx ex], y as [sy|sy| |sy my ey]; simpl;
    try reflexivity; try (by destruct sx, sy).
  rewrite (Z.min_comm ey ex). f_equal. apply Z.add_comm.
Qed.

Lemma float_add_comm (x y : PrimFloat.float) :
  PrimFloat.add x y = PrimFloat.add y x.
Proof.
  apply FloatAxioms.Prim2SF_inj. rewrite !FloatAxioms.add_spec.
  apply SFadd_comm.
Qed.

(** The sum of two doubles does not depend on their order. *)
Lemma double_add_comm (u v : Double.double) : js_add u v = js_add v u.
Proof. destruct u, v; simpl; trivial. f_equal. apply float_add_comm. Qed.






(** ** Rows and running vectors of different lengths *)

Lemma reduce_from_NaN (v : vector exact) idx row :
  reduce_from (dot_step v) idx Nan row = Nan.
Proof. revert idx. induction row as [|w row IH]; intros idx; simpl; auto. Qed.

Lemma reduce_from_long (v : vector exact) idx acc row :
  row ≠ [] → length v < idx + length row →
  reduce_from (dot_step v) idx acc row = Nan.
Proof.
  revert idx acc. induction row as [|w row IH]; intros idx acc Hne Hlen;
    [done|]. simpl in *.
  destruct row as [|w' row].
  - simpl in *. unfold dot_step. rewrite lookup_ge_None_2 by lia.
    destruct acc, w; reflexivity.
  - apply IH; [done | simpl in *; lia].
Qed.

(** C3, as amended.  [forwardPass] checks no length.  When [weights] and
    [biases] have an entry per layer and the names are known, it returns a
    result whatever the lengths of the rows: the linear sum of a row
    longer than the running vector is [NaN], and a row that is shorter
    leaves the inputs beyond its length unread. *)
Theorem forwardPass_checks_no_shape (s : State exact) (x : exact) :
  objects_defined s →
  ∃ out, forwardPass s x = Ok out ∧
    ∀ l output i n, out !! l = Some output → output !! i = Some n →
      row_unchecked s l i n.
Proof.
  intros Hs. destruct (forwardPass_returns s x Hs) as (out & Hout & _ & Hk).
  exists out. split; trivial.
  intros l output i n Hl Hi.
  destruct (Hk l output Hl) as (Wl & bl & f & v & HW & Hb & _ & ->).
  rewrite list_lookup_imap in Hi.
  destruct (Wl !! i) as [row|] eqn:Hrow; [|discriminate].
  injection Hi as <-. exists Wl, bl, row. repeat split; trivial; simpl.
  - intros Hlen. unfold reduce.
    rewrite reduce_from_long;
      [reflexivity | intros ->; simpl in Hlen; lia | simpl; lia].
  - intros Hlen. unfold reduce. by rewrite reduce_from_take.
Qed.

Lemma objects_defined_long_row : objects_defined long_row.
Proof.
  repeat split; simpl; try lia.
  intros [|l] name Hl; [|lia]. intros [= <-]. right. in_list.
Defined.

Lemma forwardPass_checks_no_shape_witness :
  objects_defined long_row ∧
  ∃ out, forwardPass long_row (Num 3) = Ok out ∧
    ∀ l output i n, out !! l = Some output → output !! i = Some n →
      row_unchecked long_row l i n.
Proof.
  split.
  - exact objects_defined_long_row.
  - apply (forwardPass_checks_no_shape long_row (Num 3)).
    exact objects_defined_long_row.
Defined.

(** C3, as it is stated, fails: with a row of two weights, or of none,
    against the one input, the pass returns a result. *)
Lemma shape_mismatch_returns :
  (first_layer_mismatch long_row (Num 3) ∧
   forwardPass long_row (Num 3) =
   Ok [[ {| z := Nan; a := Nan; inputs := [Num 3] |} ]]) ∧
  (first_layer_mismatch short_row (Num 3) ∧
   forwardPass short_row (Num 3) =
   Ok [[ {| z := Num 7; a := Num 7; inputs := [Num 3] |} ]]).
Proof.
  split; split.
  - exists [[Num 1; Num 2]], [Num 1; Num 2].
    repeat split; [in_list | simpl; lia].
  - reflexivity.
  - exists [[]], []. repeat split; [in_list | simpl; lia].
  - unfold forwardPass. simpl.
    replace (0 + 7)%R with 7%R by ring.
    replace (Rmax 0 7) with 7%R by (rewrite Rmax_right; lra).
    reflexivity.
Qed.

(** ** The activation functions and the scenarios *)





(** C7.  For the topology [[1, 1]] with weight 1.0, bias 0.0 and relu in the
    first layer and weight -1.0, bias 0.0 and relu in the second, the input
    5.0 gives the output 5.0 in the first layer and, in the second, which
    reads that output, the linear sum -5.0 and the output 0.0. *)
Theorem two_layer_relu :
  forwardPass (chain "relu" "relu" (Num 1) (Num 0) (Num (-1)) (Num 0))
              (Num 5) =
  Ok [ [ {| z := Num 5; a := Num 5; inputs := [Num 5] |} ];
       [ {| z := Num (-5); a := Num 0; inputs := [Num 5] |} ] ].
Proof.
  unfold forwardPass. simpl.
  replace (0 + 1 * 5 + 0)%R with 5%R by ring.
  replace (Rmax 0 5) with 5%R by (rewrite Rmax_right; lra).
  replace (0 + -1 * 5 + 0)%R with (-5)%R by ring.
  replace (Rmax 0 (-5)) with 0%R by (rewrite Rmax_left; lra).
  reflexivity.
Qed.

(** ** Finite numbers through a well-formed pass *)

Lemma reduce_from_finite (v : vector exact) idx acc row :
  Forall finite v → Forall finite row → finite acc →
  idx + length row ≤ length v →
  finite (reduce_from (dot_step v) idx acc row).
Proof.
  intros Hv Hrow. revert idx acc.
  induction Hrow as [|w row Hw Hrow IH]; intros idx acc Hacc Hlen; simpl in *;
    trivial.
  apply IH; [|lia]. unfold dot_step.
  destruct (lookup_lt_is_Some_2 v idx) as [y Hy]; [lia|]. rewrite Hy.
  apply exact_add_finite; trivial. apply exact_mul_finite; trivial.
  exact (proj1 (Forall_lookup _ _) Hv idx y Hy).
Qed.

Lemma well_formed_layer (s : State exact) x l v :
  well_formed s x → l < length (neuronsPerLayer s) → running s l v →
  ∃ output actFn,
    layerOutput s l v = Ok output ∧
    activationFunctions (or_relu (activations s !! l)) = Some actFn ∧
    Forall (λ n, finite (z n) ∧ a n = actFn (z n)) output ∧
    running s (S l) (map a output).
Proof.
  intros [_ (HlW & Hlb & Hshape) HWfin Hbfin Hal Hak] Hl [Hlen Hv].
  destruct (lookup_lt_is_Some_2 (neuronsPerLayer s) l) as [rows Hrows];
    trivial.
  destruct (Hshape l rows Hrows) as (Wl & bl & HW & Hb & HWl & Hcols & Hbl).
  destruct (lookup_lt_is_Some_2 (activations s) l) as [name Hname]; [lia|].
  destruct (activationFunctions_known (number:=exact) name) as (Hor & f & Hf).
  { exact (proj1 (Forall_lookup _ _) Hak l name Hname). }
  assert (activationFunctions (or_relu (activations s !! l)) = Some f) as Hf'.
  { by rewrite Hname, Hor. }
  rewrite (layerOutput_defined s l v Wl bl f) by trivial.
  assert (Forall (λ n, finite (z n) ∧ a n = f (z n))
            (imap (neuronOf bl f v) Wl)) as Hout.
  { apply Forall_lookup_2. intros i n. rewrite list_lookup_imap.
    destruct (Wl !! i) as [row|] eqn:Hrow; [|discriminate].
    intros [= <-]. simpl. split; trivial.
    apply exact_add_finite.
    - apply reduce_from_finite; trivial.
      + pose proof (proj1 (Forall_lookup _ _) HWfin l Wl HW) as HWl'.
        exact (proj1 (Forall_lookup _ _) HWl' i row Hrow).
      + by eexists.
      + pose proof (proj1 (Forall_lookup _ _) Hcols i row Hrow) as Hc.
        simpl in *. lia.
    - destruct (lookup_lt_is_Some_2 bl i) as [y Hy].
      { apply lookup_lt_Some in Hrow. lia. }
      rewrite Hy. simpl.
      pose proof (proj1 (Forall_lookup _ _) Hbfin l bl Hb) as Hbl'.
      exact (proj1 (Forall_lookup _ _) Hbl' i y Hy). }
  eexists _, f. repeat split; trivial.
  - rewrite length_map, length_imap. simpl.
    by rewrite (nth_lookup_Some _ _ _ _ Hrows).
  - apply Forall_fmap. eapply Forall_impl; [exact Hout|].
    intros n [Hz Ha]. simpl. rewrite Ha. by eapply activation_finite.
Qed.

(** C8, as amended.  In exact arithmetic, for every well-formed input of
    the evaluator, the pass returns, and the output of every neuron of a
    layer whose activation is the logistic sigmoid lies strictly between 0
    and 1. *)
Theorem sigmoid_output_range (s : State exact) (x : exact) :
  well_formed s x →
  ∃ out, forwardPass s x = Ok out ∧
    ∀ l output n, activations s !! l = Some "sigmoid" →
      out !! l = Some output → n ∈ output →
      ∃ r, a n = Num r ∧ (0 < r < 1)%R.
Proof.
  intros Hwf. unfold forwardPass.
  destruct (layerLoop_returns (running s) s
              (length (neuronsPerLayer s)) 0 [x]) as (out & Hout & Hlen & Hk).
  { intros l v [_ Hl] Hv. simpl in Hl.
    destruct (well_formed_layer s x l v Hwf Hl Hv)
      as (output & f & ? & _ & _ & ?).
    eauto. }
  { split; [reflexivity|]. repeat constructor. apply Hwf. }
  exists out. split; trivial.
  intros l output n Hsig Hl Hn.
  destruct (Hk l output Hl) as (v & Hv & Hlayer). simpl in *.
  assert (l < length (neuronsPerLayer s)) as Hlt.
  { rewrite <- Hlen. by eapply lookup_lt_Some. }
  destruct (well_formed_layer s x l v Hwf Hlt Hv)
    as (output' & f & Hlayer' & Hf & Hrec & _).
  rewrite Hlayer in Hlayer'. injection Hlayer' as <-.
  rewrite Hsig in Hf. injection Hf as <-.
  rewrite Forall_forall in Hrec. destruct (Hrec n Hn) as [[r Hz] Ha].
  rewrite Ha, Hz, sigmoid_Num. eexists. split; [reflexivity|].
  apply sigmoid_range.
Qed.

Lemma well_formed_chain name1 name2 w1 b1 w2 b2 x :
  name1 ∈ availableActivations → name2 ∈ availableActivations →
  well_formed (chain name1 name2 (Num w1) (Num b1) (Num w2) (Num b2))
              (Num x).
Proof.
  intros H1 H2. split; simpl.
  - by eexists.
  - apply (shapes_match_chain name1 name2).
  - repeat constructor; by eexists.
  - repeat constructor; by eexists.
  - reflexivity.
  - apply Forall_cons_2; [exact H1|].
    apply Forall_cons_2; [exact H2|]. apply Forall_nil_2.
Defined.

Lemma sigmoid_output_range_witness :
  well_formed (chain "tanh" "sigmoid" (Num 1) (Num 0) (Num 2) (Num 1))
              (Num 3) ∧
  ∃ out,
    forwardPass (chain "tanh" "sigmoid" (Num 1) (Num 0) (Num 2) (Num 1))
                (Num 3) = Ok out ∧
    ∀ l output n,
      activations (chain "tanh" "sigmoid" (Num 1) (Num 0) (Num 2) (Num 1))
        !! l = Some "sigmoid" →
      out !! l = Some output → n ∈ output →
      ∃ r, a n = Num r ∧ (0 < r < 1)%R.
Proof.
  assert (well_formed
            (chain "tanh" "sigmoid" (Num 1) (Num 0) (Num 2) (Num 1))
            (Num 3)) as Hwf.
  { apply well_formed_chain; in_list. }
  split; [exact Hwf|].
  exact (sigmoid_output_range _ _ Hwf).
Defined.

(** C8, as it is stated, fails in doubles: one sigmoid neuron of weight
    1e308 and bias 0 is a well-formed input with the input 10, its linear
    sum overflows to [Infinity], [Math.exp(-Infinity)] is [+0], and the
    output is 1, which is not below 1. *)
Lemma sigmoid_saturates :
  well_formed saturated Double.ten ∧
  activations saturated !! 0 = Some "sigmoid" ∧
  forwardPass saturated Double.ten =
  Ok [[ {| z := Double.Known PrimFloat.infinity;
           a := Double.Known PrimFloat.one;
           inputs := [Double.ten] |} ]] ∧
  ¬ Double.strictly_inside (Double.Known PrimFloat.one).
Proof.
  split; [|split; [reflexivity|split]].
  - split; simpl.
    + reflexivity.
    + apply shapes_from_match. simpl. repeat split; repeat constructor.
    + repeat constructor.
    + repeat constructor.
    + reflexivity.
    + repeat first [in_list | constructor].
  - vm_compute. reflexivity.
  - intros [_ H]. vm_compute in H. discriminate.
Qed.

(** ** The pass against the reference algorithm *)

Lemma foldl_ext_in {A B} (f g : A → B → A) (acc : A) (l : list B) :
  (∀ acc b, b ∈ l → f acc b = g acc b) → foldl f acc l = foldl g acc l.
Proof.
  revert acc. induction l as [|b l IH]; intros acc Hfg; simpl; trivial.
  rewrite (Hfg acc b) by apply list_elem_of_here.
  apply IH. intros acc' b' Hb'. apply Hfg. by apply list_elem_of_further.
Qed.

Lemma reference_activation {number} {arith : Arith number} k :
  activationFunctions (number:=number) (or_relu (Some (Reference.name k)))
  = Some (Reference.activationFunction k).
Proof. by destruct k. Qed.

Section Refinement.
Context {number : Type} {arith : Arith number}.

(** The one law of the arithmetic that the comparison needs: the code
    adds the bias to the sum, the reference the sum to the bias. *)
Hypothesis js_add_comm : ∀ u v : number, js_add u v = js_add v u.

(** [reduce] adds the products in the order of the row. *)
Lemma reduce_from_sum (v : vector number) idx acc row :
  reduce_from (dot_step v) idx acc row =
  foldl (λ acc j, js_add acc (js_mul (nth (j - idx) row NaN) (nth j v NaN)))
        acc (seq idx (length row)).
Proof.
  revert idx acc. induction row as [|w row IH]; intros idx acc;
    [reflexivity|].
  cbn [reduce_from length seq]. rewrite IH. simpl.
  rewrite Nat.sub_diag. cbn [nth].
  unfold dot_step, to_number. rewrite <- nth_lookup.
  apply foldl_ext_in. intros acc' j Hj. apply elem_of_seq in Hj.
  replace (j - idx) with (S (j - S idx)) by lia. reflexivity.
Qed.

(** The sum of the reference adds its terms in the order of [j]. *)
Lemma sum_foldl (term : nat → number) n :
  Reference.sum term n =
  foldl (λ acc j, js_add acc (term j)) Zero (seq 0 n).
Proof.
  induction n as [|n IH]; [reflexivity|].
  rewrite seq_S, foldl_app. simpl. by rewrite <- IH.
Qed.

Lemma reduce_reference (v : vector number) row W l i Wl :
  nth l W [] = Wl → nth i Wl [] = row → length row = length v →
  reduce (dot_step v) Zero row =
  Reference.sum (λ j, js_mul (Reference.weight W l i j) (nth j v NaN))
                (length v).
Proof.
  intros HWl Hrow Hlen. unfold reduce, Reference.weight.
  rewrite reduce_from_sum, sum_foldl, Hlen, HWl, Hrow.
  apply foldl_ext_in. intros acc j _. by rewrite Nat.sub_0_r.
Qed.

Lemma layer_reference (W : list (matrix number)) b k l v Wl bl size :
  W !! l = Some Wl → b !! l = Some bl →
  layer_shape size (length v) Wl bl →
  imap (neuronOf bl (Reference.activationFunction k) v) Wl =
  map (Reference.neuronRecord W b k l v) (seq 0 size).
Proof.
  intros HW Hb (Hsize & Hcols & Hbl). apply list_eq. intros i.
  rewrite list_lookup_imap.
  change (map ?f ?xs) with (f <$> xs). rewrite list_lookup_fmap.
  destruct (decide (i < size)) as [Hi|Hi].
  - rewrite lookup_seq_lt by trivial.
    destruct (lookup_lt_is_Some_2 Wl i) as [row Hrow]; [lia|].
    rewrite Hrow. simpl. f_equal.
    pose proof (proj1 (Forall_lookup _ _) Hcols i row Hrow) as Hlen.
    assert (z (neuronOf bl (Reference.activationFunction k) v i row)
            = z (Reference.neuronRecord W b k l v i)) as Hz.
    { cbn [z neuronOf Reference.neuronRecord]. rewrite js_add_comm.
      f_equal.
      - unfold Reference.bias, to_number.
        by rewrite (nth_lookup_Some _ _ _ _ Hb), nth_lookup.
      - apply (reduce_reference v row W l i Wl); trivial.
        + by apply nth_lookup_Some.
        + by apply nth_lookup_Some. }
    unfold neuronOf, Reference.neuronRecord in *. cbn [z] in Hz.
    rewrite Hz. reflexivity.
  - rewrite lookup_seq_ge by lia.
    rewrite lookup_ge_None_2 by lia. reflexivity.
Qed.

Lemma layerLoop_reference (s : State number) acts layers l v :
  shapes_match (neuronsPerLayer s) (weights s) (biases s) →
  activations s = map Reference.name acts →
  drop l (zip (neuronsPerLayer s) acts) = layers →
  length v = nth l (1 :: neuronsPerLayer s) 0 →
  layerLoop s (length layers) l v =
  Ok (Reference.evaluateFrom (weights s) (biases s) layers l v).
Proof.
  intros (_ & _ & Hshape) Hacts. revert l v.
  induction layers as [|[size k] layers IH]; intros l v Hdrop Hlen; simpl;
    trivial.
  assert (zip (neuronsPerLayer s) acts !! l = Some (size, k)) as Hl.
  { pose proof (lookup_drop (zip (neuronsPerLayer s) acts) l 0) as Hd.
    rewrite Hdrop, Nat.add_0_r in Hd. by rewrite <- Hd. }
  apply lookup_zip_with_Some in Hl as (size' & k' & [= <- <-] & Hsize & Hk).
  destruct (Hshape l size Hsize) as (Wl & bl & HW & Hb & Hlayer).
  rewrite <- Hlen in Hlayer.
  rewrite (layerOutput_defined s l v Wl bl (Reference.activationFunction k));
    trivial.
  2:{ rewrite Hacts. change (map ?f ?xs) with (f <$> xs).
      rewrite list_lookup_fmap, Hk. apply reference_activation. }
  rewrite (layer_reference (weights s) (biases s) k l v Wl bl size); trivial.
  cbn. rewrite IH.
  - reflexivity.
  - replace (S l) with (l + 1) by lia.
    rewrite <- drop_drop, Hdrop. reflexivity.
  - rewrite !length_map, length_seq. simpl.
    by rewrite (nth_lookup_Some _ _ _ _ Hsize).
Qed.

(** C1.  In every arithmetic whose addition does not depend on the
    order of its two arguments, the exact one and the doubles among
    them: for every input [x], every parameter set that has the shapes
    of the topology and every selection of one activation per layer,
    [forwardPass] returns what the reference algorithm of the
    specification computes: from the running vector [[x]], layer after
    layer and neuron after neuron, the record of the copied running
    vector, of the bias plus the sum of the weights times the running
    vector, and of the layer's activation of that sum, the outputs of a
    layer being the running vector of the next. *)
Theorem forwardPass_refines_reference (s : State number) (x : number)
    (acts : list Reference.Activation) :
  shapes_match (neuronsPerLayer s) (weights s) (biases s) →
  length acts = length (neuronsPerLayer s) →
  activations s = map Reference.name acts →
  forwardPass s x =
  Ok (Reference.evaluate x (neuronsPerLayer s) (weights s) (biases s) acts).
Proof.
  intros Hshape Hlen Hacts. unfold forwardPass, Reference.evaluate.
  rewrite <- (layerLoop_reference s acts); trivial.
  by rewrite length_zip_with, Hlen, Nat.min_id.
Qed.

End Refinement.

Lemma shapes_match_tenths :
  shapes_match (neuronsPerLayer DoubleSamples.tenths)
               (weights DoubleSamples.tenths) (biases DoubleSamples.tenths).
Proof. apply shapes_from_match. simpl. repeat split; repeat constructor. Defined.

(** In doubles, with the weights 0.1, 0.2 and 0.3 of three neurons added
    by a fourth, the pass and the reference algorithm both give
    0.6000000000000001. *)
Lemma tenths_in_doubles :
  forwardPass DoubleSamples.tenths (Double.Known PrimFloat.one) =
  Ok [ [ {| z := Double.Known DoubleSamples.tenth;
            a := Double.Known DoubleSamples.tenth;
            inputs := [Double.Known PrimFloat.one] |};
         {| z := Double.Known DoubleSamples.fifth;
            a := Double.Known DoubleSamples.fifth;
            inputs := [Double.Known PrimFloat.one] |};
         {| z := Double.Known DoubleSamples.three_tenths;
            a := Double.Known DoubleSamples.three_tenths;
            inputs := [Double.Known PrimFloat.one] |} ];
       [ {| z := Double.Known DoubleSamples.six_tenths_up;
            a := Double.Known DoubleSamples.six_tenths_up;
            inputs := [Double.Known DoubleSamples.tenth;
                       Double.Known DoubleSamples.fifth;
                       Double.Known DoubleSamples.three_tenths] |} ] ] ∧
  Reference.evaluate (Double.Known PrimFloat.one)
    (neuronsPerLayer DoubleSamples.tenths) (weights DoubleSamples.tenths)
    (biases DoubleSamples.tenths)
    [Reference.Identity; Reference.RectifiedLinear] =
  [ [ {| z := Double.Known DoubleSamples.tenth;
         a := Double.Known DoubleSamples.tenth;
         inputs := [Double.Known PrimFloat.one] |};
      {| z := Double.Known DoubleSamples.fifth;
         a := Double.Known DoubleSamples.fifth;
         inputs := [Double.Known PrimFloat.one] |};
      {| z := Double.Known DoubleSamples.three_tenths;
         a := Double.Known DoubleSamples.three_tenths;
         inputs := [Double.Known PrimFloat.one] |} ];
    [ {| z := Double.Known DoubleSamples.six_tenths_up;
         a := Double.Known DoubleSamples.six_tenths_up;
         inputs := [Double.Known DoubleSamples.tenth;
                    Double.Known DoubleSamples.fifth;
                    Double.Known DoubleSamples.three_tenths] |} ] ].
Proof. split; vm_compute; reflexivity. Qed.

(** In exact arithmetic the order of the sum does not matter: the sum
    of the reference is also the sum taken from the last term to the
    first. *)
Lemma exact_sum_backwards (term : nat → exact) n :
  Reference.sum term n = foldr js_add Zero (map term (seq 0 n)).
Proof.
  rewrite sum_foldl.
  assert (∀ l acc, foldl (λ acc j, js_add acc (term j)) acc l =
                   js_add acc (foldr js_add Zero (map term l))) as H.
  { induction l as [|j l IH]; intros acc.
    - symmetry. apply exact_add_zero_r.
    - change (foldl (λ acc j, js_add acc (term j)) (js_add acc (term j)) l
              = js_add acc
                  (js_add (term j) (foldr js_add Zero (map term l)))).
      rewrite IH. symmetry. apply exact_add_assoc. }
  rewrite H. apply exact_add_zero_l.
Qed.

(** In doubles it does: 0.1, 0.2 and 0.3 add up to 0.6000000000000001
    from the first to the last, as [reduce] and the reference take them,
    and to another double from the last to the first. *)
Lemma double_sum_order :
  Reference.sum
    (λ j, nth j [Double.Known DoubleSamples.tenth;
                 Double.Known DoubleSamples.fifth;
                 Double.Known DoubleSamples.three_tenths] NaN) 3
  = Double.Known DoubleSamples.six_tenths_up ∧
  foldr js_add Zero
    [Double.Known DoubleSamples.tenth; Double.Known DoubleSamples.fifth;
     Double.Known DoubleSamples.three_tenths]
  ≠ Double.Known DoubleSamples.six_tenths_up.
Proof.
  split; [vm_compute; reflexivity|].
  intros H.
  apply (f_equal (λ d, match d with
                       | Double.Known f =>
                           PrimFloat.eqb f DoubleSamples.six_tenths_up
                       | Double.Approximated => false
                       end)) in H.
  vm_compute in H. discriminate.
Qed.

Lemma forwardPass_refines_reference_witness :
  (∀ u v : Double.double, js_add u v = js_add v u) ∧
  shapes_match (neuronsPerLayer DoubleSamples.tenths)
               (weights DoubleSamples.tenths)
               (biases DoubleSamples.tenths) ∧
  length [Reference.Identity; Reference.RectifiedLinear]
    = length (neuronsPerLayer DoubleSamples.tenths) ∧
  activations DoubleSamples.tenths
    = map Reference.name [Reference.Identity; Reference.RectifiedLinear] ∧
  forwardPass DoubleSamples.tenths (Double.Known PrimFloat.one) =
  Ok (Reference.evaluate (Double.Known PrimFloat.one)
        (neuronsPerLayer DoubleSamples.tenths)
        (weights DoubleSamples.tenths) (biases DoubleSamples.tenths)
        [Reference.Identity; Reference.RectifiedLinear]).
Proof.
  split; [exact double_add_comm|].
  split; [exact shapes_match_tenths|].
  split; [reflexivity|]. split; [reflexivity|].
  exact (forwardPass_refines_reference double_add_comm
           DoubleSamples.tenths (Double.Known PrimFloat.one)
           [Reference.Identity; Reference.RectifiedLinear]
           shapes_match_tenths eq_refl eq_refl).
Defined.


(** ** The handlers that change the topology *)

Section Regeneration.
Context {number : Type} {arith : Arith number}.

(** Whatever the state before, a handler that changes the topology
    leaves parameters of the new shapes. *)
Lemma topology_change_regenerates (s s' : State number)
    (g g' : Rand (number:=number)) :
  addLayer s g = Ok (s', g') ∨
  (∃ idx, removeLayer s idx g = Ok (s', g')) ∨
  (∃ layerIdx count, updateNeuronCount s layerIdx count g = Ok (s', g')) →
  neuronsPerLayer s' ≠ neuronsPerLayer s →
  shapes_match (neuronsPerLayer s') (weights s') (biases s').
Proof.
  intros Hop Hchange. apply shapes_from_match.
  destruct Hop as [Hop|[[idx Hop]|(layerIdx & count & Hop)]].
  - unfold addLayer in Hop. case_decide as Hguard.
    { injection Hop as <- <-. done. }
    pose proof (initializeWeights_shapes (neuronsPerLayer s ++ [2]) g) as Hnew.
    destruct (initializeWeights _ g) as [Wb g1].
    by injection Hop as <- <-.
  - unfold removeLayer in Hop. case_decide as Hguard.
    { injection Hop as <- <-. done. }
    pose proof (initializeWeights_shapes
                  (filter_index idx (neuronsPerLayer s)) g) as Hnew.
    destruct (initializeWeights _ g) as [Wb g1].
    by injection Hop as <- <-.
  - unfold updateNeuronCount in Hop.
    destruct (array_set (neuronsPerLayer s) layerIdx count)
      as [newLayers|e]; [|discriminate]. cbn in Hop.
    pose proof (initializeWeights_shapes newLayers g) as Hnew.
    destruct (initializeWeights newLayers g) as [Wb g1].
    by injection Hop as <- <-.
Qed.

End Regeneration.

(** ** The scenarios in doubles *)

Module DoubleScenarios.
Import PrimFloat.
Import Double.

(** The three scenarios of the specification computed in IEEE doubles:
    their numbers are exact there too. *)
Lemma scenarios_in_doubles :
  forwardPass (single "linear" (Known 2) (Known 0.5)) (Known 3) =
  Ok [[ {| z := Known 6.5; a := Known 6.5; inputs := [Known 3] |} ]] ∧
  forwardPass (single "sigmoid" (Known 0) (Known 0)) (Known 10) =
  Ok [[ {| z := Known 0; a := Known 0.5; inputs := [Known 10] |} ]] ∧
  forwardPass (chain "relu" "relu" (Known 1) (Known 0) (Known (-1))
                 (Known 0)) (Known 5) =
  Ok [ [ {| z := Known 5; a := Known 5; inputs := [Known 5] |} ];
       [ {| z := Known (-5); a := Known 0; inputs := [Known 5] |} ] ].
Proof. repeat split; vm_compute; reflexivity. Qed.

End DoubleScenarios.

(** * Further properties of the code *)

Section Evaluation.
Context {number : Type} {arith : Arith number}.

Implicit Types (s : State number) (v row : vector number)
  (Wl : matrix number) (out : list (list (neuron number))).

(** ** When the pass returns *)

Lemma neuronLoop_throws (rows : matrix number) i
    (bl : option (vector number)) actFn v e :
  neuronLoop rows i bl actFn v = Throw e → e = TypeError.
Proof.
  revert i. induction rows as [|row rows IH]; intros i; simpl;
    [discriminate|].
  unfold neuronOutput. destruct bl as [bl|]; cbn; [|by intros [= <-]].
  destruct actFn as [f|]; cbn; [|by intros [= <-]].
  destruct (neuronLoop rows (S i) (Some bl) (Some f) v) eqn:Hloop; cbn;
    [discriminate|].
  intros [= <-]. by eapply IH.
Qed.

Lemma layerOutput_throws s l v e :
  layerOutput s l v = Throw e → e = TypeError.
Proof.
  unfold layerOutput. destruct (weights s !! l) as [Wl|]; cbn;
    [|by intros [= <-]].
  apply neuronLoop_throws.
Qed.

Lemma layerLoop_throws s count l v e :
  layerLoop s count l v = Throw e → e = TypeError.
Proof.
  revert l v. induction count as [|count IH]; intros l v; simpl;
    [discriminate|].
  destruct (layerOutput s l v) as [output|e'] eqn:Hout; cbn.
  - destruct (layerLoop s count (S l) (map a output)) eqn:Hloop; cbn;
      [discriminate|].
    intros [= <-]. by eapply IH.
  - intros [= <-]. by eapply layerOutput_throws.
Qed.

Lemma layerOutput_returns_iff s l v :
  (∃ output, layerOutput s l v = Ok output) ↔ layer_callable s l.
Proof.
  unfold layer_callable, layerOutput. split.
  - intros [output Hout].
    destruct (weights s !! l) as [Wl|]; cbn in Hout; [|discriminate].
    exists Wl. split; trivial.
    destruct Wl as [|row rows]; [by left|right].
    simpl in Hout. unfold neuronOutput in Hout.
    destruct (biases s !! l); cbn in Hout; [|discriminate].
    destruct (activationFunctions _); cbn in Hout; [|discriminate].
    split; by eexists.
  - intros (Wl & -> & [->|[[bl ->] [f ->]]]); cbn.
    + by eexists.
    + rewrite neuronLoop_defined. by eexists.
Qed.

Lemma layerLoop_returns_iff s count l v :
  (∃ out, layerLoop s count l v = Ok out) ↔
  ∀ l', l ≤ l' < l + count → layer_callable s l'.
Proof.
  split.
  - revert l v. induction count as [|count IH]; intros l v [out Hout] l' Hl';
      [lia|]. simpl in Hout.
    destruct (layerOutput s l v) as [output|] eqn:Hlayer; cbn in Hout;
      [|discriminate].
    destruct (layerLoop s count (S l) (map a output)) as [rest|] eqn:Hrest;
      cbn in Hout; [|discriminate].
    destruct (decide (l' = l)) as [->|Hne].
    + apply (layerOutput_returns_iff s l v). eauto.
    + apply (IH (S l) (map a output)); [eauto | lia].
  - intros Hall.
    destruct (layerLoop_returns (λ _ _, True) s count l v)
      as (out & Hout & _); eauto.
    intros l' v' Hl' _.
    destruct (proj2 (layerOutput_returns_iff s l' v') (Hall l' Hl'))
      as [output Houtput].
    eauto.
Qed.

Lemma layerLoop_throws_layer s count l v e :
  layerLoop s count l v = Throw e →
  ∃ l', l ≤ l' < l + count ∧ ¬ layer_callable s l'.
Proof.
  revert l v. induction count as [|count IH]; intros l v; simpl;
    [discriminate|].
  destruct (layerOutput s l v) as [output|e'] eqn:Hout; cbn.
  - destruct (layerLoop s count (S l) (map a output)) eqn:Hloop; cbn;
      [discriminate|].
    intros [= <-]. destruct (IH _ _ Hloop) as (l' & Hl' & Hno).
    exists l'. split; [lia | trivial].
  - intros _. exists l. split; [lia|].
    intros [output Houtput]%(layerOutput_returns_iff s l v). congruence.
Qed.

(** X1.  When no layer is given a name that the table inherits from
    [Object.prototype], [forwardPass] returns when every layer has its
    matrix and, unless the matrix has no row, its bias vector and a
    function for its name; in every other case it throws a
    [TypeError]. *)
Theorem forwardPass_returns_or_TypeError s x :
  own_names s →
  ((∀ l, l < length (neuronsPerLayer s) → layer_callable s l) ∧
   ∃ out, forwardPass s x = Ok out) ∨
  ((∃ l, l < length (neuronsPerLayer s) ∧ ¬ layer_callable s l) ∧
   forwardPass s x = Throw TypeError).
Proof.
  intros _. unfold forwardPass.
  destruct (layerLoop s (length (neuronsPerLayer s)) 0 [x]) as [out|e]
    eqn:Hloop.
  - left. split; [|by eexists].
    intros l Hl. eapply (layerLoop_returns_iff s _ 0 [x]); [eauto | lia].
  - right. rewrite (layerLoop_throws _ _ _ _ _ Hloop) in *. split; trivial.
    destruct (layerLoop_throws_layer _ _ _ _ _ Hloop) as (l & Hl & Hno).
    exists l. split; [lia | trivial].
Qed.

(** ** How the layers chain *)

Lemma neuronLoop_inputs (rows : matrix number) i
    (bl : option (vector number)) actFn v output :
  neuronLoop rows i bl actFn v = Ok output →
  length output = length rows ∧ Forall (λ n, inputs n = v) output.
Proof.
  revert i output. induction rows as [|row rows IH]; intros i output; simpl.
  { intros [= <-]. by split. }
  unfold neuronOutput. destruct bl as [bl|]; cbn; [|discriminate].
  destruct actFn as [f|]; cbn; [|discriminate].
  destruct (neuronLoop rows (S i) (Some bl) (Some f) v) as [rest|]
    eqn:Hloop; cbn; [|discriminate].
  intros [= <-]. destruct (IH _ _ Hloop) as [Hlen Hin].
  split; [simpl; by rewrite Hlen | by constructor].
Qed.

Lemma layerLoop_chain s count l v out :
  layerLoop s count l v = Ok out →
  length out = count ∧
  ∀ k output, out !! k = Some output →
    ∃ Wl v',
      weights s !! (l + k) = Some Wl ∧ length output = length Wl ∧
      match k with
      | O => Some v
      | S k' => map a <$> out !! k'
      end = Some v' ∧
      Forall (λ n, inputs n = v') output.
Proof.
  revert l v out. induction count as [|count IH]; intros l v out; simpl.
  { intros [= <-]. split; trivial. intros k output.
    by rewrite lookup_nil. }
  destruct (layerOutput s l v) as [output|] eqn:Hlayer; cbn;
    [|discriminate].
  destruct (layerLoop s count (S l) (map a output)) as [rest|] eqn:Hrest;
    cbn; [|discriminate].
  intros [= <-]. destruct (IH _ _ _ Hrest) as [Hlen Hk].
  split; [simpl; by rewrite Hlen|].
  intros [|k] output' Hout; simpl in Hout.
  - injection Hout as <-. unfold layerOutput in Hlayer.
    destruct (weights s !! l) as [Wl|] eqn:HW; cbn in Hlayer;
      [|discriminate].
    destruct (neuronLoop_inputs _ _ _ _ _ _ Hlayer) as [Hl Hin].
    exists Wl, v. rewrite Nat.add_0_r. by repeat split.
  - destruct (Hk k output' Hout) as (Wl & v' & HW & Hl & Hv & Hin).
    exists Wl, v'. replace (l + S k) with (S l + k) by lia.
    repeat split; trivial.
    destruct k as [|k]; simpl in *; trivial.
Qed.

(** X2.  When the pass returns, it returns one layer per entry of the
    topology; a layer has one record per row of its matrix, and all its
    records hold the same inputs: the input of the pass for the first
    layer, the outputs of the layer before for the others. *)
Theorem forwardPass_chains s x out :
  forwardPass s x = Ok out →
  length out = length (neuronsPerLayer s) ∧
  ∀ l output, out !! l = Some output →
    ∃ Wl v,
      weights s !! l = Some Wl ∧ length output = length Wl ∧
      running_vector x out l = Some v ∧
      Forall (λ n, inputs n = v) output.
Proof.
  intros Hout. destruct (layerLoop_chain _ _ _ _ _ Hout) as [Hlen Hk].
  split; [exact Hlen | exact Hk].
Qed.

(** ** A layer without a selection *)

(** With everything defined, the pass returns, and each of its layers
    is the row-by-row image of the layer's matrix over the running
    vector. *)
Lemma forwardPass_layers s x :
  objects_defined s →
  ∃ out, forwardPass s x = Ok out ∧
    length out = length (neuronsPerLayer s) ∧
    ∀ l output, out !! l = Some output →
      ∃ Wl bl actFn v, weights s !! l = Some Wl ∧ biases s !! l = Some bl ∧
        activationFunctions (or_relu (activations s !! l)) = Some actFn ∧
        running_vector x out l = Some v ∧
        output = imap (neuronOf bl actFn v) Wl.
Proof.
  intros Hs.
  destruct (forwardPass_returns s x Hs) as (out & Hout & Hlen & Hk).
  exists out. repeat split; trivial. intros l output Houtput.
  destruct (Hk l output Houtput)
    as (Wl & bl & f & v' & HW & Hb & Hf & Himap).
  destruct (layerLoop_chain _ _ _ _ _ Hout) as [_ Hchain].
  destruct (Hchain l output Houtput) as (_ & v & _ & _ & Hv & Hin).
  exists Wl, bl, f, v. repeat split; trivial.
  subst output. destruct Wl as [|row Wl]; [reflexivity|].
  simpl in Hin. apply Forall_cons in Hin as [Hhead _].
  simpl in Hhead. by subst v'.
Qed.

(** C9.  When the selection of a layer is missing, [undefined] or empty,
    [forwardPass] does not fail for it: the layer is computed with
    relu.  The pass returns, and that layer has one record per row of
    its matrix, which holds the running vector, the sum of the row over
    the running vector plus the bias, and the relu of that sum. *)
Theorem missing_selection_is_relu s (x : number) (l : nat) :
  objects_defined s →
  l < length (neuronsPerLayer s) →
  selection_missing s l →
  ∃ out output Wl bl v,
    forwardPass s x = Ok out ∧ out !! l = Some output ∧
    weights s !! l = Some Wl ∧ biases s !! l = Some bl ∧
    running_vector x out l = Some v ∧
    output =
    imap (λ i row,
            let linearSum :=
              js_add (reduce (dot_step v) Zero row)
                     (to_number (bl !! i)) in
            {| z := linearSum; a := relu linearSum; inputs := v |}) Wl.
Proof.
  intros Hs Hl Hmiss.
  destruct (forwardPass_layers s x Hs) as (out & Hout & Hlen & Hk).
  destruct (lookup_lt_is_Some_2 out l) as [output Houtput]; [lia|].
  destruct (Hk l output Houtput)
    as (Wl & bl & f & v & HW & Hb & Hf & Hv & ->).
  assert (f = relu) as ->.
  { destruct Hmiss as [Hm|Hm]; rewrite Hm in Hf; by injection Hf. }
  by exists out, (imap (neuronOf bl relu v) Wl), Wl, bl, v.
Qed.


(** ** What a layer depends on *)

Lemma layerOutput_agree s s' l v :
  weights s !! l = weights s' !! l → biases s !! l = biases s' !! l →
  activations s !! l = activations s' !! l →
  layerOutput s l v = layerOutput s' l v.
Proof. unfold layerOutput. by intros -> -> ->. Qed.

(** Two states that have the same parameters and names in the layers
    before [k] compute these layers alike. *)
Lemma layerLoop_prefix s s' k count l v out out' :
  (∀ l', l ≤ l' < l + k →
     weights s !! l' = weights s' !! l' ∧
     biases s !! l' = biases s' !! l' ∧
     activations s !! l' = activations s' !! l') →
  layerLoop s count l v = Ok out → layerLoop s' count l v = Ok out' →
  take k out = take k out'.
Proof.
  revert count l v out out'.
  induction k as [|k IH]; intros count l v out out' Hagree; [done|].
  destruct count as [|count]; simpl.
  { by intros [= <-] [= <-]. }
  destruct (Hagree l) as (HW & Hb & Ha); [lia|].
  rewrite <- (layerOutput_agree s s' l v HW Hb Ha).
  destruct (layerOutput s l v) as [output|]; cbn; [|discriminate].
  destruct (layerLoop s count (S l) (map a output)) as [rest|] eqn:Hrest;
    cbn; [|discriminate].
  destruct (layerLoop s' count (S l) (map a output)) as [rest'|] eqn:Hrest';
    cbn; [|discriminate].
  intros [= <-] [= <-]. simpl. f_equal.
  eapply (IH count (S l)); eauto. intros l' Hl'. apply Hagree. lia.
Qed.

End Evaluation.

Lemma own_names_unknown_name : own_names unknown_name.
Proof.
  intros [|l] name Hl; [|simpl in Hl; lia]. intros [= <-].
  unfold Object_prototype_names. rewrite !not_elem_of_cons.
  repeat split; try discriminate. apply not_elem_of_nil.
Defined.

Lemma forwardPass_returns_or_TypeError_witness :
  own_names unknown_name ∧
  (((∀ l, l < length (neuronsPerLayer unknown_name) →
       layer_callable unknown_name l) ∧
    ∃ out, forwardPass unknown_name (Num 5) = Ok out) ∨
   ((∃ l, l < length (neuronsPerLayer unknown_name) ∧
       ¬ layer_callable unknown_name l) ∧
    forwardPass unknown_name (Num 5) = Throw TypeError)).
Proof.
  split; [exact own_names_unknown_name|].
  exact (forwardPass_returns_or_TypeError unknown_name (Num 5)
           own_names_unknown_name).
Defined.

Lemma missing_selection_is_relu_witness :
  objects_defined unselected ∧
  1 < length (neuronsPerLayer unselected) ∧
  selection_missing unselected 1 ∧
  ∃ out output Wl bl v,
    forwardPass unselected (Num (-4)) = Ok out ∧ out !! 1 = Some output ∧
    weights unselected !! 1 = Some Wl ∧ biases unselected !! 1 = Some bl ∧
    running_vector (Num (-4)) out 1 = Some v ∧
    output =
    imap (λ i row,
            let linearSum :=
              js_add (reduce (dot_step v) Zero row)
                     (to_number (bl !! i)) in
            {| z := linearSum; a := relu linearSum; inputs := v |}) Wl.
Proof.
  assert (1 < length (neuronsPerLayer unselected)) as Hl by (simpl; lia).
  assert (selection_missing unselected 1) as Hmiss by (by left).
  split; [exact objects_defined_unselected|].
  split; [exact Hl|]. split; [exact Hmiss|].
  exact (missing_selection_is_relu unselected (Num (-4)) 1
           objects_defined_unselected Hl Hmiss).
Defined.


Lemma array_set_lookup {A} (arr arr' : list A) i v :
  array_set arr i v = Ok arr' →
  arr' !! i = Some v ∧ ∀ j, j ≠ i → arr' !! j = arr !! j.
Proof.
  unfold array_set. repeat case_decide; try discriminate; intros [= <-].
  - split; [by apply list_lookup_insert_eq|].
    intros j Hj. by apply list_lookup_insert_ne.
  - subst i. split.
    + rewrite lookup_app_r by lia. by rewrite Nat.sub_diag.
    + intros j Hj. destruct (decide (j < length arr)).
      * by rewrite lookup_app_l.
      * rewrite !lookup_ge_None_2; trivial; [lia|].
        rewrite length_app. simpl. lia.
Qed.

Lemma filter_index_from_delete {A} i idx (arr : list A) :
  i ≤ idx → filter_index_from i idx arr = delete (idx - i) arr.
Proof.
  revert i. induction arr as [|v arr IH]; intros i Hi; simpl; trivial.
  case_decide as Hne.
  - rewrite IH by lia. destruct (idx - i) as [|k] eqn:Hk; [lia|].
    simpl. do 2 f_equal. lia.
  - assert (i = idx) as -> by lia. rewrite Nat.sub_diag. simpl.
    apply filter_index_from_ge. lia.
Qed.

Section Handlers.
Context {number : Type} {arith : Arith number}.

Implicit Types (s : State number) (g : Rand (number:=number)).

(** ** Editing a parameter *)

(** X3.  [updateWeight], when it returns, has written [val] at
    [weights[layerIdx][neuronIdx][inputIdx]] and nothing else: every
    other weight, the biases, the topology, the selection, the input
    and the random source are as before. *)
Theorem updateWeight_writes_one_entry s g layerIdx neuronIdx inputIdx val
    s' g' :
  updateWeight s layerIdx neuronIdx inputIdx val g = Ok (s', g') →
  weightAt s' layerIdx neuronIdx inputIdx = Some val ∧
  (∀ l n i, (l, n, i) ≠ (layerIdx, neuronIdx, inputIdx) →
     weightAt s' l n i = weightAt s l n i) ∧
  biases s' = biases s ∧ neuronsPerLayer s' = neuronsPerLayer s ∧
  activations s' = activations s ∧ input s' = input s ∧ g' = g.
Proof.
  unfold updateWeight.
  destruct (weights s !! layerIdx) as [layer|] eqn:Hlayer; cbn;
    [|discriminate].
  destruct (layer !! neuronIdx) as [row|] eqn:Hrow; cbn; [|discriminate].
  destruct (array_set row inputIdx val) as [row'|] eqn:Hset; cbn;
    [|discriminate].
  intros [= <- <-]. destruct (array_set_lookup _ _ _ _ Hset) as [Hi Hj].
  pose proof (lookup_lt_Some _ _ _ Hlayer) as Hl.
  pose proof (lookup_lt_Some _ _ _ Hrow) as Hn.
  repeat split; trivial; unfold weightAt; simpl.
  - rewrite list_lookup_insert_eq by trivial.
    by rewrite list_lookup_insert_eq.
  - intros l n i Hne. destruct (decide (l = layerIdx)) as [->|Hl'].
    + rewrite list_lookup_insert_eq by trivial. rewrite Hlayer.
      destruct (decide (n = neuronIdx)) as [->|Hn'].
      * rewrite list_lookup_insert_eq by trivial. rewrite Hrow.
        apply Hj. congruence.
      * by rewrite list_lookup_insert_ne.
    + by rewrite list_lookup_insert_ne.
Qed.

Lemma updateWeight_frame s g l n i val s' g' :
  updateWeight s l n i val g = Ok (s', g') →
  length (neuronsPerLayer s') = length (neuronsPerLayer s) ∧
  ∀ l', l' ≠ l →
    weights s !! l' = weights s' !! l' ∧
    biases s !! l' = biases s' !! l' ∧
    activations s !! l' = activations s' !! l'.
Proof.
  unfold updateWeight.
  destruct (weights s !! l) as [layer|]; cbn; [|discriminate].
  destruct (layer !! n) as [row|]; cbn; [|discriminate].
  destruct (array_set row i val) as [row'|]; cbn; [|discriminate].
  intros [= <- <-]. split; trivial. intros l' Hl'. simpl.
  by rewrite list_lookup_insert_ne.
Qed.

Lemma updateBias_frame s g l n val s' g' :
  updateBias s l n val g = Ok (s', g') →
  length (neuronsPerLayer s') = length (neuronsPerLayer s) ∧
  ∀ l', l' ≠ l →
    weights s !! l' = weights s' !! l' ∧
    biases s !! l' = biases s' !! l' ∧
    activations s !! l' = activations s' !! l'.
Proof.
  unfold updateBias.
  destruct (biases s !! l) as [bl|]; cbn; [|discriminate].
  destruct (array_set bl n val) as [bl'|]; cbn; [|discriminate].
  intros [= <- <-]. split; trivial. intros l' Hl'. simpl.
  by rewrite list_lookup_insert_ne.
Qed.

(** X4.  An edit of a weight or of a bias of layer [layerIdx] leaves
    what the pass returns for the layers before it as it was. *)
Theorem edit_keeps_earlier_layers s g layerIdx neuronIdx inputIdx val
    s' g' x out out' :
  updateWeight s layerIdx neuronIdx inputIdx val g = Ok (s', g') ∨
  updateBias s layerIdx neuronIdx val g = Ok (s', g') →
  forwardPass s x = Ok out → forwardPass s' x = Ok out' →
  take layerIdx out' = take layerIdx out.
Proof.
  intros Hedit Hout Hout'.
  assert (length (neuronsPerLayer s') = length (neuronsPerLayer s) ∧
          ∀ l', l' ≠ layerIdx →
            weights s !! l' = weights s' !! l' ∧
            biases s !! l' = biases s' !! l' ∧
            activations s !! l' = activations s' !! l') as [Hlen Hframe].
  { destruct Hedit as [H|H];
      [by eapply updateWeight_frame | by eapply updateBias_frame]. }
  unfold forwardPass in *. rewrite Hlen in Hout'. symmetry.
  eapply (layerLoop_prefix s s'); eauto.
  intros l' Hl'. apply Hframe. lia.
Qed.

(** ** Removing and adding a layer *)

(** X5.  [removeLayer], when the guard lets it through, takes position
    [idx] out of the topology and out of the selection alike, so every
    layer that stays keeps its activation. *)
Theorem removeLayer_deletes s g idx s' g' :
  1 < length (neuronsPerLayer s) →
  removeLayer s idx g = Ok (s', g') →
  neuronsPerLayer s' = delete idx (neuronsPerLayer s) ∧
  activations s' = delete idx (activations s).
Proof.
  intros Hlen. unfold removeLayer. case_decide; [lia|].
  destruct (initializeWeights _ g) as [Wb g1]. intros [= <- <-].
  unfold filter_index. simpl.
  rewrite !filter_index_from_delete by lia. by rewrite Nat.sub_0_r.
Qed.

(** X6.  Below the limit of 5 layers, adding a layer and then removing
    the last one gives back the topology and the selection; the
    parameters are drawn anew. *)
Theorem addLayer_removeLayer s g :
  1 ≤ length (neuronsPerLayer s) < 5 →
  length (activations s) = length (neuronsPerLayer s) →
  ∃ s1 g1 s2 g2,
    addLayer s g = Ok (s1, g1) ∧
    neuronsPerLayer s1 = neuronsPerLayer s ++ [2] ∧
    activations s1 = activations s ++ ["relu"] ∧
    removeLayer s1 (length (neuronsPerLayer s)) g1 = Ok (s2, g2) ∧
    neuronsPerLayer s2 = neuronsPerLayer s ∧
    activations s2 = activations s.
Proof.
  intros Hlen Hacts. unfold addLayer. case_decide; [lia|].
  destruct (initializeWeights (neuronsPerLayer s ++ [2]) g) as [Wb g1].
  exists (setParams s (neuronsPerLayer s ++ [2])
            (activations s ++ ["relu"]) Wb), g1.
  unfold removeLayer. simpl. case_decide as Hguard.
  { rewrite length_app in Hguard. simpl in Hguard. lia. }
  destruct (initializeWeights _ g1) as [Wb2 g2].
  eexists _, g2. repeat split; simpl; unfold filter_index;
    rewrite filter_index_from_delete, Nat.sub_0_r by lia.
  - rewrite delete_take_drop, take_app_length.
    rewrite drop_ge; [by rewrite app_nil_r|].
    rewrite length_app. simpl. lia.
  - rewrite <- Hacts. rewrite delete_take_drop, take_app_length.
    rewrite drop_ge; [by rewrite app_nil_r|].
    rewrite length_app. simpl. lia.
Qed.

(** ** No handler throws *)

(** X7.  In a state that the page reaches, the handler of every event
    that the controls can send returns: none throws, and none leaves a
    sparse array. *)
Theorem offered_event_handled s g ev :
  reachable (s, g) → offered s ev →
  ∃ s' g', handle s ev g = Ok (s', g').
Proof.
  intros Hr Hoff.
  destruct (invariant_reachable _ Hr) as [[Hlen Hsize] Hshape Hal Hak].
  simpl in *.
  destruct ev as [|idx|layerIdx count|idx value|l n i val|l n val| |x];
    simpl in *.
  - unfold addLayer. case_decide; [by eexists _, _|].
    destruct (initializeWeights _ g). by eexists _, _.
  - unfold removeLayer. case_decide; [by eexists _, _|].
    destruct (initializeWeights _ g). by eexists _, _.
  - destruct Hoff as [Hidx _]. unfold updateNeuronCount, array_set.
    case_decide; [|lia]. cbn.
    destruct (initializeWeights _ g). by eexists _, _.
  - destruct Hoff as [Hidx _]. unfold selectActivation, array_set.
    case_decide; [|lia]. cbn. by eexists _, _.
  - destruct Hoff as (layer & row & Hlayer & Hrow & Hi).
    unfold updateWeight. rewrite Hlayer. cbn. rewrite Hrow. cbn.
    unfold array_set. case_decide; [|lia]. cbn. by eexists _, _.
  - destruct Hoff as (layer & Hlayer & Hn).
    destruct (lookup_lt_is_Some_2 (neuronsPerLayer s) l) as [rows Hrows].
    { destruct (shapes_from_lengths _ _ _ _ Hshape) as [<- _].
      eapply lookup_lt_Some; eauto. }
    destruct (shapes_from_lookup _ _ _ _ _ _ Hshape Hrows)
      as (Wl & bl & HWl & Hbl & (HlW & _ & Hlb)).
    rewrite Hlayer in HWl. injection HWl as <-.
    unfold updateBias. rewrite Hbl. cbn.
    unfold array_set. case_decide; [|lia]. cbn. by eexists _, _.
  - unfold regenerateWeights.
    destruct (initializeWeights _ g). by eexists _, _.
  - unfold setInput. by eexists _, _.
Qed.

End Handlers.

Lemma array_set_Forall_any {A} (P : A → Prop) (arr arr' : list A) i v :
  array_set arr i v = Ok arr' → P v → Forall P arr → Forall P arr'.
Proof.
  unfold array_set. repeat case_decide; try discriminate;
    intros [= <-] Hv Harr.
  - by apply Forall_insert.
  - apply Forall_app. split; trivial. by constructor.
Qed.

Section Values.
Context {number : Type} {arith : Arith number}.
Variable P : number → Prop.

Implicit Types (s : State number) (g : Rand (number:=number)).

(** ** Where the parameters come from *)

Lemma Array_from_values {A} (Q : A → Prop) len
    (f : Gen (number:=number) A) g :
  (∀ g0, (∀ n, P (g0 n)) → Q (f g0).1 ∧ ∀ n, P ((f g0).2 n)) →
  (∀ n, P (g n)) →
  Forall Q (Array_from len f g).1 ∧ ∀ n, P ((Array_from len f g).2 n).
Proof.
  intros Hf. revert g.
  induction len as [|len IH]; intros g Hg; simpl.
  - split; [constructor | trivial].
  - unfold gen_bind. destruct (Hf g Hg) as [Hv Hg1].
    destruct (f g) as [v g1]. simpl in *.
    destruct (IH g1 Hg1) as [Hvs Hg2].
    destruct (Array_from len f g1) as [vs g2]. simpl in *.
    split; [by constructor | trivial].
Qed.

Lemma randomWeight_values g :
  (∀ n, P (g n)) →
  P (randomWeight g).1 ∧ ∀ n, P ((randomWeight g).2 n).
Proof. intros Hg. simpl. split; [apply Hg | intros n; apply Hg]. Qed.

Lemma initializeLoop_values cols sizes g :
  (∀ n, P (g n)) →
  Forall (Forall (Forall P)) (initializeLoop cols sizes g).1.1 ∧
  Forall (Forall P) (initializeLoop cols sizes g).1.2 ∧
  ∀ n, P ((initializeLoop cols sizes g).2 n).
Proof.
  revert cols g.
  induction sizes as [|rows sizes IH]; intros cols g Hg; simpl.
  { repeat split; trivial; constructor. }
  unfold gen_bind.
  destruct (Array_from_values (A:=list number) (Forall P) rows
              (Array_from cols randomWeight) g) as [HWl Hg1]; trivial.
  { intros g0 Hg0. apply Array_from_values; trivial.
    apply randomWeight_values. }
  destruct (Array_from rows (Array_from cols randomWeight) g) as [Wl g1].
  simpl in *.
  destruct (Array_from_values P rows randomWeight g1) as [Hbl Hg2];
    trivial.
  { apply randomWeight_values. }
  destruct (Array_from rows randomWeight g1) as [bl g2]. simpl in *.
  destruct (IH rows g2 Hg2) as (HW & Hb & Hg3).
  destruct (initializeLoop rows sizes g2) as [[W b] g3]. simpl in *.
  repeat split; trivial; by constructor.
Qed.

Lemma regenerated_values s layers acts g :
  P (input s) → (∀ n, P (g n)) →
  values_in P (setParams s layers acts (initializeWeights layers g).1,
               (initializeWeights layers g).2).
Proof.
  intros Hin Hg.
  destruct (initializeLoop_values 1 layers g Hg) as (HW & Hb & Hg').
  by split.
Qed.

Lemma values_in_reachable_with (c : State number * Rand) :
  P Zero → reachable_with P c → values_in P c.
Proof.
  intros H0. induction 1 as [g Hg|s g ev s' g' _ IH Hoff Hval Hev].
  - unfold initialState.
    destruct (initializeLoop_values 1 [3; 2] g Hg) as (HW & Hb & Hg').
    unfold initializeWeights in *.
    destruct (initializeLoop 1 [3; 2] g) as [Wb g1]. by split.
  - destruct IH as [Hin HW Hb Hg]. simpl in *.
    destruct ev as [|idx|layerIdx count|idx value|l n i val|l n val| |x];
      simpl in *.
    + unfold addLayer in Hev. case_decide.
      { injection Hev as <- <-. by split. }
      pose proof (regenerated_values s (neuronsPerLayer s ++ [2])
                    (activations s ++ ["relu"]) g Hin Hg) as Hnew.
      destruct (initializeWeights _ g). by injection Hev as <- <-.
    + unfold removeLayer in Hev. case_decide.
      { injection Hev as <- <-. by split. }
      pose proof (regenerated_values s
                    (filter_index idx (neuronsPerLayer s))
                    (filter_index idx (activations s)) g Hin Hg) as Hnew.
      destruct (initializeWeights _ g). by injection Hev as <- <-.
    + unfold updateNeuronCount in Hev.
      destruct (array_set (neuronsPerLayer s) layerIdx count)
        as [newLayers|]; cbn in Hev; [|discriminate].
      pose proof (regenerated_values s newLayers (activations s) g Hin Hg)
        as Hnew.
      destruct (initializeWeights _ g). by injection Hev as <- <-.
    + unfold selectActivation in Hev.
      destruct (array_set (activations s) idx value); cbn in Hev;
        [|discriminate].
      injection Hev as <- <-. by split.
    + unfold updateWeight in Hev.
      destruct (weights s !! l) as [layer|] eqn:Hlayer; cbn in Hev;
        [|discriminate].
      destruct (layer !! n) as [row|] eqn:Hrow; cbn in Hev; [|discriminate].
      destruct (array_set row i val) as [row'|] eqn:Hset; cbn in Hev;
        [|discriminate].
      injection Hev as <- <-. split; simpl; trivial.
      pose proof (proj1 (Forall_lookup _ _) HW l layer Hlayer) as Hl.
      pose proof (proj1 (Forall_lookup _ _) Hl n row Hrow) as Hr.
      apply Forall_insert; trivial. apply Forall_insert; trivial.
      by eapply array_set_Forall_any.
    + unfold updateBias in Hev.
      destruct (biases s !! l) as [bl|] eqn:Hbl; cbn in Hev; [|discriminate].
      destruct (array_set bl n val) as [bl'|] eqn:Hset; cbn in Hev;
        [|discriminate].
      injection Hev as <- <-. split; simpl; trivial.
      pose proof (proj1 (Forall_lookup _ _) Hb l bl Hbl) as Hl.
      apply Forall_insert; trivial. by eapply array_set_Forall_any.
    + unfold regenerateWeights in Hev.
      pose proof (regenerated_values s (neuronsPerLayer s) (activations s)
                    g Hin Hg) as Hnew.
      destruct (initializeWeights _ g). by injection Hev as <- <-.
    + unfold setInput in Hev. injection Hev as <- <-. by split.
Qed.

(** X8.  Every weight and every bias of a state that the page reaches
    is a value that [randomWeight] returned or that a parameter slider
    sent, and its input is 0 or a value of the input slider: what holds
    of all these values holds of all parameters. *)
Theorem reachable_with_values (c : State number * Rand) :
  P Zero → reachable_with P c → values_in P c.
Proof. exact (values_in_reachable_with c). Qed.


End Values.

Section Render.
Context {number : Type} {arith : Arith number}.

Implicit Types (s : State number) (g : Rand (number:=number)).

(** ** What the render finds *)

Lemma layerLoop_agree s s' count l v :
  weights s = weights s' → biases s = biases s' →
  activations s = activations s' →
  layerLoop s count l v = layerLoop s' count l v.
Proof.
  intros HW Hb Ha. revert l v.
  induction count as [|count IH]; intros l v; simpl; trivial.
  rewrite (layerOutput_agree s s' l v) by congruence.
  destruct (layerOutput s' l v); cbn; trivial. by rewrite IH.
Qed.

(** A pass over parameters that have the shapes of a topology returns
    layers of the sizes of that topology. *)
Lemma shaped_pass_sizes s topology x :
  shapes_match topology (weights s) (biases s) →
  length (neuronsPerLayer s) = length topology →
  (∀ l name, activations s !! l = Some name →
     name = "" ∨ name ∈ availableActivations) →
  ∃ out, forwardPass s x = Ok out ∧
    Forall2 (λ size output, length output = size) topology out.
Proof.
  intros (HlW & Hlb & Hshape) Hlen Hnames.
  destruct (forwardPass_returns s x) as (out & Hout & Hlout & Hk).
  { repeat split; try lia. intros l name _. apply Hnames. }
  exists out. split; trivial.
  apply Forall2_same_length_lookup_2; [congruence|].
  intros l size output Hsize Houtput.
  destruct (Hk l output Houtput) as (Wl & bl & f & v & HW & _ & _ & ->).
  destruct (Hshape l size Hsize) as (Wl' & bl' & HW' & _ & HWl & _).
  rewrite length_imap. congruence.
Qed.

(** X9.  In a state that the page reaches, the pass returns for every
    input, and its layers have the sizes of the topology: the render
    computes [currentOutputs] and the chart's sweep without an
    exception, and the diagram has one node for the input and one per
    neuron. *)
Theorem reachable_pass_returns s g x :
  reachable (s, g) →
  ∃ out, forwardPass s x = Ok out ∧
    Forall2 (λ size output, length output = size) (neuronsPerLayer s) out ∧
    ∃ layers, visualizationLayers s = Ok layers ∧
      Forall2 (λ size layer, length layer = size)
              (1 :: neuronsPerLayer s) layers.
Proof.
  intros Hr.
  destruct (invariant_reachable _ Hr) as [_ Hshape Hal Hak]. simpl in *.
  apply shapes_from_match in Hshape.
  assert (∀ l name, activations s !! l = Some name →
            name = "" ∨ name ∈ availableActivations) as Hnames.
  { intros l name Hname. right.
    exact (proj1 (Forall_lookup _ _) Hak l name Hname). }
  destruct (shaped_pass_sizes s _ x Hshape eq_refl Hnames)
    as (out & Hout & Hsizes).
  exists out. repeat split; trivial.
  destruct (shaped_pass_sizes s _ (input s) Hshape eq_refl Hnames)
    as (cur & Hcur & Hcursizes).
  unfold visualizationLayers, currentOutputs. rewrite Hcur. cbn.
  eexists. split; [reflexivity|].
  constructor; [reflexivity|].
  change (map ?f ?xs) with (f <$> xs). apply Forall2_fmap_r.
  eapply Forall2_impl; [exact Hcursizes|].
  intros size layer <-. simpl. by rewrite length_map.
Qed.

(** X10.  In a state that the page reaches, every cell that the trace
    table and the editor read for a neuron of the topology is there:
    its bias, and its row of weights, as long as the layer before; and
    the editor finds a first row in every layer for its header. *)
Theorem tables_read_defined_cells s g lIdx size nIdx :
  reachable (s, g) →
  neuronsPerLayer s !! lIdx = Some size → nIdx < size →
  ∃ bias row Wl,
    traceRow s lIdx nIdx = Ok (bias, row) ∧
    editorBias s lIdx nIdx = Ok bias ∧
    length row = nth lIdx (1 :: neuronsPerLayer s) 0 ∧
    weights s !! lIdx = Some Wl ∧
    editorColumns Wl = Ok (nth lIdx (1 :: neuronsPerLayer s) 0).
Proof.
  intros Hr Hsize Hn.
  destruct (invariant_reachable _ Hr) as [_ Hshape _ _]. simpl in *.
  destruct (shapes_from_lookup _ _ _ _ _ _ Hshape Hsize)
    as (Wl & bl & HW & Hb & HlW & Hcols & Hlb).
  destruct (lookup_lt_is_Some_2 bl nIdx) as [bias Hbias]; [lia|].
  destruct (lookup_lt_is_Some_2 Wl nIdx) as [row Hrow]; [lia|].
  destruct (lookup_lt_is_Some_2 Wl 0) as [row0 Hrow0]; [lia|].
  exists bias, row, Wl.
  unfold traceRow, editorBias, editorColumns.
  rewrite Hb, HW. cbn. rewrite Hbias, Hrow, Hrow0. cbn.
  repeat split; trivial.
  - exact (proj1 (Forall_lookup _ _) Hcols nIdx row Hrow).
  - f_equal. exact (proj1 (Forall_lookup _ _) Hcols 0 row0 Hrow0).
Qed.

(** X11.  In a state that the page reaches, the weight of every edge of
    the diagram is there: for a node [nIdx] of layer [lIdx] of the
    diagram and a node [nextIdx] of the next one,
    [weights[lIdx][nextIdx][nIdx]] is a number. *)
Theorem edges_read_defined_weights s g lIdx nextSize nextIdx nIdx :
  reachable (s, g) →
  neuronsPerLayer s !! lIdx = Some nextSize → nextIdx < nextSize →
  nIdx < nth lIdx (1 :: neuronsPerLayer s) 0 →
  ∃ w, edgeWeight s lIdx nextIdx nIdx = Ok (Some w).
Proof.
  intros Hr Hsize Hnext Hn.
  destruct (invariant_reachable _ Hr) as [_ Hshape _ _]. simpl in *.
  destruct (shapes_from_lookup _ _ _ _ _ _ Hshape Hsize)
    as (Wl & bl & HW & Hb & HlW & Hcols & Hlb).
  destruct (lookup_lt_is_Some_2 Wl nextIdx) as [row Hrow]; [lia|].
  pose proof (proj1 (Forall_lookup _ _) Hcols nextIdx row Hrow) as Hlen.
  destruct (lookup_lt_is_Some_2 row nIdx) as [w Hw].
  { simpl in *. lia. }
  exists w. unfold edgeWeight. rewrite HW. cbn. rewrite Hrow. cbn.
  by rewrite Hw.
Qed.

(** ** The page of the older variant *)

(** X12.  In the older variant, a move of a neuron-count slider leaves
    parameters of the shapes of the topology before the move: when the
    count changes, they do not have the shapes of the new topology. *)
Theorem older_slider_regenerates_stale s g idx count s' g' :
  OlderPage.sliderChange s idx count g = Ok (s', g') →
  idx < length (neuronsPerLayer s) →
  neuronsPerLayer s !! idx ≠ Some count →
  shapes_match (neuronsPerLayer s) (weights s') (biases s') ∧
  ¬ shapes_match (neuronsPerLayer s') (weights s') (biases s').
Proof.
  unfold OlderPage.sliderChange. intros Hev Hidx Hcount.
  destruct (array_set (neuronsPerLayer s) idx count) as [newCounts|]
    eqn:Hset; cbn in Hev; [|discriminate].
  pose proof (initializeWeights_shapes (neuronsPerLayer s) g) as Hold.
  destruct (initializeWeights (neuronsPerLayer s) g) as [Wb g1].
  injection Hev as <- <-. simpl in *.
  apply shapes_from_match in Hold. split; trivial.
  intros (_ & _ & Hnew).
  destruct (array_set_lookup _ _ _ _ Hset) as [Hi _].
  destruct (Hnew idx count Hi) as (Wl & bl & HW & _ & HlW & _).
  destruct (lookup_lt_is_Some_2 (neuronsPerLayer s) idx) as [old Hidx'];
    trivial.
  destruct Hold as (_ & _ & Hold).
  destruct (Hold idx old Hidx') as (Wl' & bl' & HW' & _ & HlW' & _).
  rewrite HW in HW'. injection HW' as <-.
  apply Hcount. rewrite Hidx'. f_equal. congruence.
Qed.

(** The parameters of the older page always have the shapes of some
    topology of three layers. *)
Lemma older_invariant (c : State number * Rand) :
  OlderPage.reachable c →
  activations c.1 = ["relu"; "sigmoid"; "tanh"] ∧
  length (neuronsPerLayer c.1) = 3 ∧
  ∃ topology, length topology = 3 ∧
    shapes_match topology (weights c.1) (biases c.1).
Proof.
  induction 1 as [g|s g ev s' g' _ IH Hoff Hev].
  - unfold OlderPage.initialState.
    pose proof (initializeWeights_shapes [3; 3; 2] g) as Hnew.
    destruct (initializeWeights [3; 3; 2] g) as [Wb g1]. simpl in *.
    repeat split. exists [3; 3; 2]. split; trivial.
    by apply shapes_from_match.
  - simpl in *. destruct IH as (Hacts & Hlen & t & Ht & Hshape).
    destruct ev as [idx count| |x]; simpl in *.
    + destruct Hoff as [Hidx _]. unfold OlderPage.sliderChange in Hev.
      destruct (array_set (neuronsPerLayer s) idx count) as [newCounts|]
        eqn:Hset; cbn in Hev; [|discriminate].
      destruct (array_set_Forall (λ _, True) _ _ _ _ Hidx Hset)
        as (_ & Hl & _).
      pose proof (initializeWeights_shapes (neuronsPerLayer s) g) as Hnew.
      destruct (initializeWeights (neuronsPerLayer s) g) as [Wb g1].
      injection Hev as <- <-. simpl in *.
      repeat split; trivial; [congruence|].
      exists (neuronsPerLayer s). split; trivial.
      by apply shapes_from_match.
    + unfold OlderPage.regenerateWeights in Hev.
      pose proof (initializeWeights_shapes (neuronsPerLayer s) g) as Hnew.
      destruct (initializeWeights (neuronsPerLayer s) g) as [Wb g1].
      injection Hev as <- <-. simpl in *.
      repeat split; trivial.
      exists (neuronsPerLayer s). split; trivial.
      by apply shapes_from_match.
    + unfold setInput in Hev. injection Hev as <- <-. simpl.
      repeat split; trivial. by exists t.
Qed.

(** X13.  In every state that the older page reaches, its pass returns
    for every input, stale parameters included: the layers it returns
    have the sizes of the topology that the parameters were drawn for,
    which has three layers too. *)
Theorem older_pass_returns s g x :
  OlderPage.reachable (s, g) →
  ∃ out topology,
    Older.forwardPass s x = Ok out ∧
    length topology = length (neuronsPerLayer s) ∧
    shapes_match topology (weights s) (biases s) ∧
    Forall2 (λ size output, length output = size) topology out.
Proof.
  intros Hr.
  destruct (older_invariant _ Hr) as (Hacts & Hlen & t & Ht & Hshape).
  simpl in *.
  destruct (shaped_pass_sizes s t x Hshape) as (out & Hout & Hsizes).
  { congruence. }
  { intros l name Hname. right. rewrite Hacts in Hname.
    destruct l as [|[|[|l]]]; simpl in Hname; try discriminate;
      injection Hname as <-; in_list. }
  exists out, t. split; [|split; [congruence | by split]].
  rewrite older_forwardPass; trivial.
  - by rewrite Hacts, Hlen.
  - rewrite Hacts. repeat first [in_list | constructor].
Qed.

End Render.

(** ** The outputs of a reachable state, in exact arithmetic *)



Lemma reachable_with_second_render :
  reachable_with finite (second_render.1, second_render.2).
Proof.
  apply (reachable_with_step finite first_render.1 first_render.2
           (UpdateNeuronCount 0 6)).
  - apply (reachable_with_init finite zeros). intros n. by exists 0%R.
  - simpl. unfold maxNeurons. lia.
  - exact I.
  - reflexivity.
Defined.


(** ** Numbers on display *)

(** X15.  Outside the weights view, [getNodeColor] gives a finite value
    a fill whose opacity is the magnitude of the value, cut to the range
    from 0.3 to 1: 0.3 up to the magnitude 0.3, the magnitude itself up
    to 1, and 1 above.  The fill is green for a value that is 0 or more
    and orange below 0, and the opacity can be read back from the fill,
    as the edges do. *)
Theorem getNodeColor_opacity (val : R) (mode : string) :
  mode ≠ "weights" →
  getNodeColor (Num val) mode =
  (if Rle_dec 0 val
   then {| fill := Rgba 34 197 94 (Num (Rmax (Rmin (Rabs val) 1) 0.3));
           stroke := Rgba 34 197 94 (Num 1) |}
   else {| fill := Rgba 249 115 22 (Num (Rmax (Rmin (Rabs val) 1) 0.3));
           stroke := Rgba 249 115 22 (Num 1) |}) ∧
  fillOpacity (fill (getNodeColor (Num val) mode))
  = Ok (Num (Rmax (Rmin (Rabs val) 1) 0.3)) ∧
  (0.3 <= Rmax (Rmin (Rabs val) 1) 0.3 <= 1)%R ∧
  (Rabs val <= 0.3 → Rmax (Rmin (Rabs val) 1) 0.3 = 0.3)%R ∧
  (0.3 <= Rabs val <= 1 → Rmax (Rmin (Rabs val) 1) 0.3 = Rabs val)%R ∧
  (1 <= Rabs val → Rmax (Rmin (Rabs val) 1) 0.3 = 1)%R.
Proof.
  intros Hmode. unfold getNodeColor. case_decide; [done|]. simpl.
  split; [by destruct (Rle_dec 0 val)|].
  split; [by destruct (Rle_dec 0 val)|].
  split.
  { split; [apply Rmax_r|]. apply Rmax_lub; [apply Rmin_r | lra]. }
  repeat split.
  - intros Hsmall. rewrite Rmin_left by lra. apply Rmax_right. lra.
  - intros [Hlow Hhigh]. rewrite Rmin_left by lra. apply Rmax_left. lra.
  - intros Hbig. rewrite Rmin_right by lra. apply Rmax_left. lra.
Qed.

Lemma getNodeColor_opacity_witness :
  "activity" ≠ "weights" ∧
  getNodeColor (Num (-0.5)) "activity" =
  (if Rle_dec 0 (-0.5)
   then {| fill := Rgba 34 197 94 (Num (Rmax (Rmin (Rabs (-0.5)) 1) 0.3));
           stroke := Rgba 34 197 94 (Num 1) |}
   else {| fill := Rgba 249 115 22 (Num (Rmax (Rmin (Rabs (-0.5)) 1) 0.3));
           stroke := Rgba 249 115 22 (Num 1) |}) ∧
  fillOpacity (fill (getNodeColor (Num (-0.5)) "activity"))
  = Ok (Num (Rmax (Rmin (Rabs (-0.5)) 1) 0.3)) ∧
  (0.3 <= Rmax (Rmin (Rabs (-0.5)) 1) 0.3 <= 1)%R ∧
  (Rabs (-0.5) <= 0.3 → Rmax (Rmin (Rabs (-0.5)) 1) 0.3 = 0.3)%R ∧
  (0.3 <= Rabs (-0.5) <= 1 →
   Rmax (Rmin (Rabs (-0.5)) 1) 0.3 = Rabs (-0.5))%R ∧
  (1 <= Rabs (-0.5) → Rmax (Rmin (Rabs (-0.5)) 1) 0.3 = 1)%R.
Proof.
  split; [discriminate|].
  apply (getNodeColor_opacity (-0.5) "activity"). discriminate.
Defined.

(** X16.  In the weights view an edge of finite weight is drawn with an
    intensity between 0 and 1 and a stroke at least 1 wide, and exactly
    three times the magnitude of the weight from a third on. *)
Theorem edge_style_bounds (w : R) :
  ∃ i k, edgeIntensity (Num w) = Num i ∧ edgeStrokeWidth (Num w) = Num k ∧
    (0 <= i <= 1)%R ∧ (1 <= k)%R ∧
    (1 <= Rabs w * 3 → k = Rabs w * 3)%R.
Proof.
  exists (Rmin (Rabs w) 1), (Rmax 1 (Rabs w * 3)).
  repeat split.
  - apply Rmin_glb; [apply Rabs_pos | lra].
  - apply Rmin_r.
  - apply Rmax_l.
  - intros H. by apply Rmax_right.
Qed.

Lemma pow10_pos digits : (0 < 10 ^ digits)%R.
Proof. apply pow_lt. lra. Qed.

Lemma round_close (p y : R) (n : Z) :
  (0 < p)%R → n = Zfloor (y * p + / 2) →
  (Rabs (IZR n / p - y) <= / (2 * p))%R.
Proof.
  intros Hp ->. pose proof (Zfloor_bound (y * p + / 2)) as [Hlo Hhi].
  set (m := IZR (Zfloor (y * p + / 2))) in *.
  assert (m / p - y = (m - y * p) * / p)%R as -> by (field; lra).
  rewrite Rinv_mult. rewrite Rabs_mult, (Rabs_pos_eq (/ p)).
  2:{ left. by apply Rinv_0_lt_compat. }
  apply Rmult_le_compat_r.
  { left. by apply Rinv_0_lt_compat. }
  apply Rabs_le. lra.
Qed.

(** X17.  The value that [parseFloat(x.toFixed(digits))] gives in exact
    arithmetic is within half a unit of the last digit kept of [x]: the
    chart shows each output within 0.00005 of its value. *)
Theorem toFixed_value_close (digits : nat) (x : R) :
  (Rabs (toFixed_value digits x - x) <= / (2 * 10 ^ digits))%R.
Proof.
  pose proof (pow10_pos digits) as Hp.
  unfold toFixed_value. destruct (Rle_dec 1e21 (Rabs x)).
  { rewrite Rminus_diag, Rabs_R0. left. apply Rinv_0_lt_compat. lra. }
  pose proof (round_close (10 ^ digits) (Rabs x) _ Hp eq_refl) as Hclose.
  destruct (Rlt_dec x 0) as [Hneg|Hpos].
  - rewrite (Rabs_left x) in * by trivial.
    rewrite <- Rabs_Ropp.
    match goal with |- (Rabs ?t <= _)%R =>
      replace t with (IZR (Zfloor (- x * 10 ^ digits + / 2)) / 10 ^ digits
                      - - x)%R by lra end.
    exact Hclose.
  - rewrite (Rabs_right x) in * by lra. exact Hclose.
Qed.

(** X18.  In exact arithmetic [randomWeight()] returns a whole number of
    hundredths between -1 and 1, whatever [Math.random()] gives in
    [0, 1). *)
Theorem randomWeight_of_range (u : R) :
  (0 <= u < 1)%R →
  ∃ k : Z, randomWeight_of u = Num (IZR k / 100) ∧ (-100 ≤ k ≤ 100)%Z.
Proof.
  intros Hu. unfold randomWeight_of, parseFloat_toFixed. simpl.
  unfold toFixed_value.
  set (y := (u * 2 + - (1))%R).
  assert (Rabs y <= 1)%R as Hy by (apply Rabs_le; unfold y; lra).
  destruct (Rle_dec 1e21 (Rabs y)) as [Hbig|_]; [lra|].
  replace (10 ^ 2)%R with 100%R by (simpl; lra).
  set (n := Zfloor (Rabs y * 100 + / 2)).
  assert (0 ≤ n ≤ 100)%Z as Hn.
  { pose proof (Rabs_pos y). split.
    - apply Zfloor_lub. simpl. lra.
    - apply Z.lt_succ_r, lt_IZR.
      pose proof (Zfloor_bound (Rabs y * 100 + / 2)) as [Hlo _].
      fold n in Hlo. rewrite succ_IZR. lra. }
  destruct (Rlt_dec y 0).
  - exists (- n)%Z. split; [|lia]. f_equal. rewrite opp_IZR. lra.
  - exists n. split; [reflexivity | lia].
Qed.

Lemma randomWeight_of_range_witness :
  (0 <= 0.25 < 1)%R ∧
  ∃ k : Z, randomWeight_of 0.25 = Num (IZR k / 100) ∧ (-100 ≤ k ≤ 100)%Z.
Proof.
  split; [lra|]. apply (randomWeight_of_range 0.25). lra.
Defined.

(** ** The layout of the diagram *)

Lemma nodeY_bounds (size nIdx : nat) :
  1 ≤ size ≤ 6 → nIdx < size →
  (neuronRadius + 1 <= nodeY size nIdx <= svgHeight - neuronRadius - 1)%R.
Proof.
  intros [Hlo Hhi] Hn. unfold nodeY, svgHeight, neuronSpacing, neuronRadius.
  apply le_INR in Hlo, Hhi.
  assert (S nIdx ≤ size) as Hn' by lia. apply le_INR in Hn'.
  rewrite S_INR in Hn'. pose proof (pos_INR nIdx). simpl in Hlo, Hhi. lra.
Qed.

Lemma nodeX_bounds (layers lIdx : nat) :
  2 ≤ layers ≤ 6 → lIdx < layers →
  (neuronRadius <= nodeX layers lIdx <= svgWidth - neuronRadius)%R.
Proof.
  intros [Hlo Hhi] Hl. unfold nodeX, layerSpacing, svgWidth, neuronRadius.
  apply le_INR in Hlo, Hhi.
  assert (S lIdx ≤ layers) as Hl' by lia. apply le_INR in Hl'.
  rewrite S_INR in Hl'. pose proof (pos_INR lIdx) as Hpos.
  simpl in Hlo, Hhi.
  set (m := (INR layers + 1)%R) in *. set (j := (INR lIdx + 1)%R) in *.
  assert (0 < m)%R as Hm by (unfold m; lra).
  assert (800 / m * j = 800 * j / m)%R as -> by (field; lra).
  split.
  - apply (Rmult_le_reg_r m); [trivial|].
    replace (800 * j / m * m)%R with (800 * j)%R by (field; lra).
    unfold m, j in *. nra.
  - apply (Rmult_le_reg_r m); [trivial|].
    replace (800 * j / m * m)%R with (800 * j)%R by (field; lra).
    unfold m, j in *. nra.
Qed.

Section Layout.
Context {number : Type} {arith : Arith number}.

(** X19.  In a state that the page reaches, the circle of every node of
    the diagram lies inside the 800 by 400 canvas: the limits of 5
    layers and of 6 neurons are the ones the layout has room for. *)
Theorem nodes_inside_canvas (s : State number) (g : Rand) lIdx size nIdx :
  reachable (s, g) →
  (1 :: neuronsPerLayer s) !! lIdx = Some size → nIdx < size →
  (neuronRadius <= nodeX (S (length (neuronsPerLayer s))) lIdx
     <= svgWidth - neuronRadius)%R ∧
  (neuronRadius <= nodeY size nIdx <= svgHeight - neuronRadius)%R.
Proof.
  intros Hr Hsize Hn.
  destruct (invariant_reachable _ Hr) as [[Hlen Hsizes] _ _ _].
  simpl in *. split.
  - apply nodeX_bounds; [lia|].
    apply lookup_lt_Some in Hsize. simpl in Hsize. lia.
  - assert (1 ≤ size ≤ 6) as Hbound.
    { destruct lIdx as [|lIdx]; simpl in Hsize.
      - injection Hsize as <-. lia.
      - exact (proj1 (Forall_lookup _ _) Hsizes lIdx size Hsize). }
    pose proof (nodeY_bounds size nIdx Hbound Hn).
    unfold neuronRadius, svgHeight in *. lra.
Qed.

End Layout.

Lemma nodes_inside_canvas_witness :
  reachable (second_render.1, second_render.2) ∧
  (1 :: neuronsPerLayer second_render.1) !! 1 = Some 6 ∧ 5 < 6 ∧
  (neuronRadius <= nodeX (S (length (neuronsPerLayer second_render.1))) 1
     <= svgWidth - neuronRadius)%R ∧
  (neuronRadius <= nodeY 6 5 <= svgHeight - neuronRadius)%R.
Proof.
  split; [exact reachable_second_render|].
  split; [reflexivity|]. split; [lia|].
  apply (nodes_inside_canvas second_render.1 second_render.2 1 6 5);
    [exact reachable_second_render | reflexivity | lia].
Defined.

(** X20.  In the diagram of the older variant, whose slider goes up to 8
    neurons, the circles of a layer all lie inside the canvas, 300 high,
    exactly when the layer has at most 5 neurons. *)
Theorem older_layer_fits_iff (size : nat) :
  1 ≤ size →
  (∀ nIdx, nIdx < size →
     (older_neuronRadius <= older_nodeY size nIdx
        <= older_svgHeight - older_neuronRadius)%R) ↔
  size ≤ 5.
Proof.
  intros Hsize.
  unfold older_nodeY, older_neuronRadius, older_svgHeight,
    older_neuronSpacing. split.
  - intros Hfit. destruct (Hfit 0) as [Htop _]; [lia|].
    destruct (decide (size ≤ 5)) as [|Hbig]; [done|]. exfalso.
    assert (6 ≤ size) as H6 by lia. apply le_INR in H6.
    simpl in Htop, H6. lra.
  - intros Hmax nIdx Hn.
    apply le_INR in Hsize, Hmax.
    assert (S nIdx ≤ size) as Hn' by lia. apply le_INR in Hn'.
    rewrite S_INR in Hn'. pose proof (pos_INR nIdx). simpl in Hsize, Hmax.
    lra.
Qed.

Lemma older_layer_fits_iff_witness :
  1 ≤ 8 ∧
  ((∀ nIdx, nIdx < 8 →
      (older_neuronRadius <= older_nodeY 8 nIdx
         <= older_svgHeight - older_neuronRadius)%R) ↔
   8 ≤ 5).
Proof.
  split; [lia|]. apply (older_layer_fits_iff 8). lia.
Defined.

(** ** The chart's filter *)

Lemma pretty_N_go_underscore_free x s :
  underscore_free s → underscore_free (pretty_N_go x s).
Proof.
  revert s. induction (N.lt_wf_0 x) as [x _ IH]; intros s Hs.
  assert (x = 0 ∨ 0 < x)%N as [->|Hx] by lia.
  - by rewrite pretty_N_go_0.
  - rewrite pretty_N_go_step by done. apply IH.
    { by apply N.div_lt. }
    split; trivial. unfold pretty_N_char, underscore.
    by repeat case_match.
Qed.

Lemma pretty_nat_underscore_free (n : nat) : underscore_free (pretty n).
Proof.
  unfold pretty, pretty_nat, pretty, pretty_N. case_decide.
  - simpl. split; [discriminate | exact I].
  - by apply pretty_N_go_underscore_free.
Qed.

Lemma underscore_split (d d' r r' : string) :
  underscore_free d → underscore_free d' →
  d +:+ String underscore r = d' +:+ String underscore r' →
  d = d' ∧ r = r'.
Proof.
  revert d'. induction d as [|c d IH]; intros [|c' d'] Hd Hd'; simpl.
  - by intros [= ->].
  - intros [= <- _]. by destruct Hd' as [[] _].
  - intros [= -> _]. by destruct Hd as [[] _].
  - intros [= <- Hrest]. destruct Hd as [_ Hd], Hd' as [_ Hd'].
    destruct (IH d' Hd Hd' Hrest) as [-> ->]. done.
Qed.

Lemma lineKey_inj lIdx nIdx lIdx' nIdx' :
  lineKey lIdx nIdx = lineKey lIdx' nIdx' → lIdx = lIdx' ∧ nIdx = nIdx'.
Proof.
  unfold lineKey. intros Hkey. simpl in Hkey. injection Hkey as Hkey.
  change ("_N" +:+ ?r) with (String underscore ("N" +:+ r)) in Hkey.
  apply underscore_split in Hkey as [Hl Hn];
    try apply pretty_nat_underscore_free.
  simpl in Hn. injection Hn as Hn.
  change (pretty (nIdx + 1) = pretty (nIdx' + 1)) in Hn.
  apply (inj pretty) in Hl, Hn. lia.
Qed.

Lemma toggle_elem (hiddenLines : gset string) (key k : string) :
  k ∈ toggleLineVisibility hiddenLines key ↔
  if decide (k = key) then k ∉ hiddenLines else k ∈ hiddenLines.
Proof.
  unfold toggleLineVisibility.
  destruct (decide (key ∈ hiddenLines));
    [rewrite elem_of_difference | rewrite elem_of_union];
    rewrite elem_of_singleton;
    destruct (decide (k = key)) as [->|]; tauto.
Qed.

(** X21.  A click on the filter button of a neuron hides its line if it
    was drawn and draws it if it was hidden, leaves the line of every
    other neuron as it was, and a second click undoes the first: no two
    neurons share a key. *)
Theorem toggle_flips_one_line (hiddenLines : gset string) (lIdx nIdx : nat) :
  (lineDrawn (toggleLineVisibility hiddenLines (lineKey lIdx nIdx)) lIdx nIdx
   ↔ ¬ lineDrawn hiddenLines lIdx nIdx) ∧
  (∀ lIdx' nIdx', (lIdx', nIdx') ≠ (lIdx, nIdx) →
     (lineDrawn (toggleLineVisibility hiddenLines (lineKey lIdx nIdx))
                lIdx' nIdx'
      ↔ lineDrawn hiddenLines lIdx' nIdx')) ∧
  toggleLineVisibility
    (toggleLineVisibility hiddenLines (lineKey lIdx nIdx))
    (lineKey lIdx nIdx) = hiddenLines.
Proof.
  unfold lineDrawn. split; [|split].
  - rewrite toggle_elem. by case_decide.
  - intros lIdx' nIdx' Hne. rewrite toggle_elem.
    destruct (decide (lineKey lIdx' nIdx' = lineKey lIdx nIdx)) as [Hkey|];
      [|done].
    apply lineKey_inj in Hkey as [-> ->]. done.
  - apply set_eq. intros k. rewrite toggle_elem.
    destruct (decide (k = lineKey lIdx nIdx)) as [Hkey|Hkey];
      rewrite toggle_elem; destruct (decide (k = lineKey lIdx nIdx));
      try done.
    destruct (decide (k ∈ hiddenLines)); tauto.
Qed.

(** ** The sweep of the chart *)

Lemma sweep_more_fuel fuel step x xs k :
  Sweep.from fuel step x = Some xs → Sweep.from (fuel + k) step x = Some xs.
Proof.
  revert x xs. induction fuel as [|fuel IH]; intros x xs; simpl;
    [discriminate|].
  destruct (PrimFloat.leb x Sweep.limit); trivial.
  destruct (Sweep.from fuel step (PrimFloat.add x step)) as [rest|] eqn:Hrest;
    [|discriminate].
  by rewrite (IH _ _ Hrest).
Qed.

(** X22.  The sweep of [graphData], which adds 0.2 from -5 while the sum
    is at most 5, stops after 50 values: the sum has drifted by then, the
    last value is 4.800000000000004, and the chart has no point at 5. *)
Theorem graphData_sweep_stops_short (k : nat) :
  ∃ xs, Sweep.graphData_inputs (51 + k) = Some xs ∧
    length xs = 50 ∧ last xs = Some Sweep.last_current ∧
    PrimFloat.ltb Sweep.last_current Sweep.limit = true ∧
    PrimFloat.leb (PrimFloat.add Sweep.last_current Sweep.step_current)
      Sweep.limit = false.
Proof.
  destruct (Sweep.graphData_inputs 51) as [xs|] eqn:Hxs;
    [|vm_compute in Hxs; discriminate].
  exists xs. split; [by apply sweep_more_fuel|].
  vm_compute in Hxs. injection Hxs as <-. repeat split.
Qed.

(** X23.  The sweep of the older variant, which adds 0.1, takes 101
    values, the last one being 4.999999999999997. *)
Theorem older_graphData_sweep (k : nat) :
  ∃ xs, Sweep.older_graphData_inputs (102 + k) = Some xs ∧
    length xs = 101 ∧ last xs = Some Sweep.last_older ∧
    PrimFloat.leb (PrimFloat.add Sweep.last_older Sweep.step_older)
      Sweep.limit = false.
Proof.
  destruct (Sweep.older_graphData_inputs 102) as [xs|] eqn:Hxs;
    [|vm_compute in Hxs; discriminate].
  exists xs. split; [by apply sweep_more_fuel|].
  vm_compute in Hxs. injection Hxs as <-. repeat split.
Qed.

(** ** The properties of the rest of the page, on the samples *)

Lemma forwardPass_identity_pair (w : R) :
  forwardPass (identity_pair w) (Num 5) = Ok (identity_pair_out w).
Proof. reflexivity. Defined.

Lemma updateWeight_identity_pair :
  updateWeight (identity_pair 1) 1 0 0 (Num 2) zeros
  = Ok (identity_pair 2, zeros).
Proof. reflexivity. Defined.

Lemma forwardPass_chains_witness :
  forwardPass (identity_pair 2) (Num 5) = Ok (identity_pair_out 2) ∧
  length (identity_pair_out 2) = length (neuronsPerLayer (identity_pair 2)) ∧
  ∀ l output, identity_pair_out 2 !! l = Some output →
    ∃ Wl v,
      weights (identity_pair 2) !! l = Some Wl ∧
      length output = length Wl ∧
      running_vector (Num 5) (identity_pair_out 2) l = Some v ∧
      Forall (λ n, inputs n = v) output.
Proof.
  split; [exact (forwardPass_identity_pair 2)|].
  exact (forwardPass_chains (identity_pair 2) (Num 5) (identity_pair_out 2)
           (forwardPass_identity_pair 2)).
Defined.

Lemma updateWeight_writes_one_entry_witness :
  updateWeight (identity_pair 1) 1 0 0 (Num 2) zeros
  = Ok (identity_pair 2, zeros) ∧
  weightAt (identity_pair 2) 1 0 0 = Some (Num 2) ∧
  (∀ l n i, (l, n, i) ≠ (1, 0, 0) →
     weightAt (identity_pair 2) l n i = weightAt (identity_pair 1) l n i) ∧
  biases (identity_pair 2) = biases (identity_pair 1) ∧
  neuronsPerLayer (identity_pair 2) = neuronsPerLayer (identity_pair 1) ∧
  activations (identity_pair 2) = activations (identity_pair 1) ∧
  input (identity_pair 2) = input (identity_pair 1) ∧ zeros = zeros.
Proof.
  split; [exact updateWeight_identity_pair|].
  exact (updateWeight_writes_one_entry (identity_pair 1) zeros 1 0 0 (Num 2)
           (identity_pair 2) zeros updateWeight_identity_pair).
Defined.

Lemma edit_keeps_earlier_layers_witness :
  (updateWeight (identity_pair 1) 1 0 0 (Num 2) zeros
   = Ok (identity_pair 2, zeros) ∨
   updateBias (identity_pair 1) 1 0 (Num 2) zeros
   = Ok (identity_pair 2, zeros)) ∧
  forwardPass (identity_pair 1) (Num 5) = Ok (identity_pair_out 1) ∧
  forwardPass (identity_pair 2) (Num 5) = Ok (identity_pair_out 2) ∧
  take 1 (identity_pair_out 2) = take 1 (identity_pair_out 1).
Proof.
  split; [left; exact updateWeight_identity_pair|].
  split; [exact (forwardPass_identity_pair 1)|].
  split; [exact (forwardPass_identity_pair 2)|].
  exact (edit_keeps_earlier_layers (identity_pair 1) zeros 1 0 0 (Num 2)
           (identity_pair 2) zeros (Num 5)
           (identity_pair_out 1) (identity_pair_out 2)
           (or_introl updateWeight_identity_pair)
           (forwardPass_identity_pair 1) (forwardPass_identity_pair 2)).
Defined.

Lemma removeLayer_first_render :
  removeLayer first_render.1 1 first_render.2
  = Ok (layer_removed.1, layer_removed.2).
Proof. reflexivity. Defined.

Lemma removeLayer_deletes_witness :
  1 < length (neuronsPerLayer first_render.1) ∧
  removeLayer first_render.1 1 first_render.2
  = Ok (layer_removed.1, layer_removed.2) ∧
  neuronsPerLayer layer_removed.1 = delete 1 (neuronsPerLayer first_render.1) ∧
  activations layer_removed.1 = delete 1 (activations first_render.1).
Proof.
  assert (1 < length (neuronsPerLayer first_render.1)) as Hlen
    by (simpl; lia).
  split; [exact Hlen|]. split; [exact removeLayer_first_render|].
  exact (removeLayer_deletes first_render.1 first_render.2 1
           layer_removed.1 layer_removed.2 Hlen removeLayer_first_render).
Defined.

Lemma addLayer_removeLayer_witness :
  1 ≤ length (neuronsPerLayer first_render.1) < 5 ∧
  length (activations first_render.1)
  = length (neuronsPerLayer first_render.1) ∧
  ∃ s1 g1 s2 g2,
    addLayer first_render.1 first_render.2 = Ok (s1, g1) ∧
    neuronsPerLayer s1 = neuronsPerLayer first_render.1 ++ [2] ∧
    activations s1 = activations first_render.1 ++ ["relu"] ∧
    removeLayer s1 (length (neuronsPerLayer first_render.1)) g1
    = Ok (s2, g2) ∧
    neuronsPerLayer s2 = neuronsPerLayer first_render.1 ∧
    activations s2 = activations first_render.1.
Proof.
  assert (1 ≤ length (neuronsPerLayer first_render.1) < 5) as Hlen
    by (simpl; lia).
  split; [exact Hlen|]. split; [reflexivity|].
  exact (addLayer_removeLayer first_render.1 first_render.2 Hlen eq_refl).
Defined.

Lemma offered_second_render_bias :
  offered second_render.1 (UpdateBias 0 5 (Num 1)).
Proof. eexists. split; [reflexivity | simpl; lia]. Defined.

Lemma offered_event_handled_witness :
  reachable (second_render.1, second_render.2) ∧
  offered second_render.1 (UpdateBias 0 5 (Num 1)) ∧
  ∃ s' g',
    handle second_render.1 (UpdateBias 0 5 (Num 1)) second_render.2
    = Ok (s', g').
Proof.
  split; [exact reachable_second_render|].
  split; [exact offered_second_render_bias|].
  exact (offered_event_handled second_render.1 second_render.2
           (UpdateBias 0 5 (Num 1))
           reachable_second_render offered_second_render_bias).
Defined.

Lemma finite_Zero : finite (Zero : exact).
Proof. by exists 0%R. Defined.

Lemma reachable_with_values_witness :
  finite (Zero : exact) ∧
  reachable_with finite (second_render.1, second_render.2) ∧
  values_in finite (second_render.1, second_render.2).
Proof.
  split; [exact finite_Zero|].
  split; [exact reachable_with_second_render|].
  exact (reachable_with_values finite (second_render.1, second_render.2)
           finite_Zero reachable_with_second_render).
Defined.

Lemma reachable_pass_returns_witness :
  reachable (second_render.1, second_render.2) ∧
  ∃ out, forwardPass second_render.1 (Num 5) = Ok out ∧
    Forall2 (λ size output, length output = size)
            (neuronsPerLayer second_render.1) out ∧
    ∃ layers, visualizationLayers second_render.1 = Ok layers ∧
      Forall2 (λ size layer, length layer = size)
              (1 :: neuronsPerLayer second_render.1) layers.
Proof.
  split; [exact reachable_second_render|].
  exact (reachable_pass_returns second_render.1 second_render.2 (Num 5)
           reachable_second_render).
Defined.

Lemma tables_read_defined_cells_witness :
  reachable (second_render.1, second_render.2) ∧
  neuronsPerLayer second_render.1 !! 0 = Some 6 ∧ 5 < 6 ∧
  ∃ bias row Wl,
    traceRow second_render.1 0 5 = Ok (bias, row) ∧
    editorBias second_render.1 0 5 = Ok bias ∧
    length row = nth 0 (1 :: neuronsPerLayer second_render.1) 0 ∧
    weights second_render.1 !! 0 = Some Wl ∧
    editorColumns Wl = Ok (nth 0 (1 :: neuronsPerLayer second_render.1) 0).
Proof.
  assert (5 < 6) as Hn by lia.
  split; [exact reachable_second_render|].
  split; [reflexivity|]. split; [exact Hn|].
  exact (tables_read_defined_cells second_render.1 second_render.2 0 6 5
           reachable_second_render eq_refl Hn).
Defined.

Lemma edges_read_defined_weights_witness :
  reachable (second_render.1, second_render.2) ∧
  neuronsPerLayer second_render.1 !! 1 = Some 2 ∧ 1 < 2 ∧
  5 < nth 1 (1 :: neuronsPerLayer second_render.1) 0 ∧
  ∃ w, edgeWeight second_render.1 1 1 5 = Ok (Some w).
Proof.
  assert (1 < 2) as Hnext by lia.
  assert (5 < nth 1 (1 :: neuronsPerLayer second_render.1) 0) as Hn
    by (simpl; lia).
  split; [exact reachable_second_render|].
  split; [reflexivity|]. split; [exact Hnext|]. split; [exact Hn|].
  exact (edges_read_defined_weights second_render.1 second_render.2 1 2 1 5
           reachable_second_render eq_refl Hnext Hn).
Defined.

Lemma sliderChange_older_first_render :
  OlderPage.sliderChange older_first_render.1 0 8 older_first_render.2
  = Ok (older_second_render.1, older_second_render.2).
Proof. reflexivity. Defined.

Lemma older_slider_regenerates_stale_witness :
  OlderPage.sliderChange older_first_render.1 0 8 older_first_render.2
  = Ok (older_second_render.1, older_second_render.2) ∧
  0 < length (neuronsPerLayer older_first_render.1) ∧
  neuronsPerLayer older_first_render.1 !! 0 ≠ Some 8 ∧
  shapes_match (neuronsPerLayer older_first_render.1)
    (weights older_second_render.1) (biases older_second_render.1) ∧
  ¬ shapes_match (neuronsPerLayer older_second_render.1)
      (weights older_second_render.1) (biases older_second_render.1).
Proof.
  assert (0 < length (neuronsPerLayer older_first_render.1)) as Hidx
    by (simpl; lia).
  assert (neuronsPerLayer older_first_render.1 !! 0 ≠ Some 8) as Hcount
    by discriminate.
  split; [exact sliderChange_older_first_render|].
  split; [exact Hidx|]. split; [exact Hcount|].
  exact (older_slider_regenerates_stale older_first_render.1
           older_first_render.2 0 8
           older_second_render.1 older_second_render.2
           sliderChange_older_first_render Hidx Hcount).
Defined.

Lemma reachable_older_second_render :
  OlderPage.reachable (older_second_render.1, older_second_render.2).
Proof.
  apply (OlderPage.reachable_step older_first_render.1 older_first_render.2
           (OlderPage.SliderChange 0 8)).
  - apply (OlderPage.reachable_init zeros).
  - simpl. unfold Older.maxNeurons. lia.
  - exact sliderChange_older_first_render.
Defined.

Lemma older_pass_returns_witness :
  OlderPage.reachable (older_second_render.1, older_second_render.2) ∧
  ∃ out topology,
    Older.forwardPass older_second_render.1 (Num 5) = Ok out ∧
    length topology = length (neuronsPerLayer older_second_render.1) ∧
    shapes_match topology (weights older_second_render.1)
      (biases older_second_render.1) ∧
    Forall2 (λ size output, length output = size) topology out.
Proof.
  split; [exact reachable_older_second_render|].
  exact (older_pass_returns older_second_render.1 older_second_render.2
           (Num 5) reachable_older_second_render).
Defined.
